(** * PromptDec: semantic search, embedding cache and deck interchange

    Shallow embedding of the TypeScript snippets that make up the core of
    PromptDec (src/unnamed/part_001, "Search Implementation" and
    "Caching Strategy"), together with the deck interchange format and the
    import step, which the repository only describes.

    JavaScript numbers are IEEE-754 binary64 values; they are modelled by
    the kernel's primitive floats ([PrimFloat.float]), whose operations are
    the binary64 ones (round to nearest even), so [+], [*], [/], [sqrt],
    [<] behave as [+], [*], [/], [Math.sqrt] and [>] do in JavaScript.
    Millisecond timestamps (integral JavaScript numbers) are modelled as [Z]. *)

From Stdlib Require Import ZArith List Floats Permutation Sorted Lia Bool String Ascii.
From stdpp Require Import base gmap strings.

Import ListNotations.

(* ------------------------------------------------------------------ *)
(** ** JavaScript number helpers *)

Module JsNum.

Local Open Scope float_scope.

(** [x * b[i]] where [b[i]] is [undefined]: [ToNumber(undefined)] is NaN. *)
Definition index_num (b : list float) (i : nat) : float :=
  match nth_error b i with
  | Some x => x
  | None => nan
  end.

(** [arr.reduce((acc, x, i) => f acc x i, init)] on an array of numbers:
    a left fold that also passes the index. *)
Definition reduce_idx (f : float -> float -> nat -> float) (init : float)
  (l : list float) : float :=
  fst (fold_left (fun acc x => (f (fst acc) x (snd acc), S (snd acc))) l (init, 0%nat)).

(** [a > b] on numbers. *)
Definition gt (a b : float) : bool := PrimFloat.ltb b a.

End JsNum.

(** Classes of binary64 values, on their SpecFloat models (used in the
    proofs about signs, zeros and NaN). *)
Module FloatClass.

(** Strictly positive: [0 < f]. *)
Definition SFpos (f : spec_float) : bool := SFltb (S754_zero false) f.

(** Values that are a (signed) zero or NaN. *)
Definition zero_or_nan (f : spec_float) : bool :=
  match f with S754_zero _ | S754_nan => true | _ => false end.

(** The accumulator of a sum of such values: +0 or NaN. *)
Definition pzero_or_nan (f : spec_float) : bool :=
  match f with S754_zero false | S754_nan => true | _ => false end.

(** The value of a floating-point number as an integer multiple of the
    smallest subnormal [2^emin]; the infinities sit beyond every finite
    value, both zeros and NaN at 0.  On valid values other than NaN,
    [SFcompare] compares these integers. *)
Definition sf_val (prec emax : Z) (f : spec_float) : Z :=
  match f with
  | S754_zero _ | S754_nan => 0
  | S754_infinity s => cond_Zopp s (2 ^ (emax - SpecFloat.emin prec emax))
  | S754_finite s m e => cond_Zopp s (Zpos m * 2 ^ (e - SpecFloat.emin prec emax))
  end.

(** The same for binary64 numbers. *)
Definition fval (x : float) : Z := sf_val FloatOps.prec FloatOps.emax (Prim2SF x).

(** The score of a search result, as such an integer. *)
Definition score_key {A : Type} (r : A * float) : Z := fval (snd r).

(** The score of a search result is a number, not NaN. *)
Definition score_not_nan {A : Type} (r : A * float) : Prop := Prim2SF (snd r) <> S754_nan.

(** [a]'s score is at least [b]'s. *)
Definition score_ge {A : Type} (a b : A * float) : Prop := (score_key b <= score_key a)%Z.

End FloatClass.

(* ------------------------------------------------------------------ *)
(** ** Semantic search (part_001, "Search Implementation") *)

Module Similarity.

Local Open Scope float_scope.

(** The subset of a card the search reads.  [content_embedding] is the
    value of [JSON.parse(card.content_embedding)]: the TEXT column holds a
    JSON array of numbers, or SQL NULL for a card not embedded yet
    ([JSON.parse(null)] is [null]). *)
Record Card := mkCard {
  card_id : string;
  content_embedding : option (list float)
}.

(** [function cosineSimilarity(a: number[], b: number[]): number] *)
Definition dot (a b : list float) : float :=
  JsNum.reduce_idx (fun sum x i => sum + x * JsNum.index_num b i) 0 a.

Definition magnitude (a : list float) : float :=
  PrimFloat.sqrt (JsNum.reduce_idx (fun sum x _ => sum + x * x) 0 a).

Definition cosineSimilarity (a b : list float) : float :=
  dot a b / (magnitude a * magnitude b).

(** A vector of magnitude zero: every component is [=== 0] (+0 or -0). *)
Definition zero_vector (v : list float) : bool :=
  forallb (fun x => PrimFloat.eqb x 0) v.

Section Pipeline.

(** The pipeline is written over any candidate type [A] from which the
    stored embedding is read: card records here, heap references to card
    objects in [SearchHeap]. *)
Context {A : Type} (embedding_of : A -> option (list float)).

(** [cards.map(card => ({card, similarity: cosineSimilarity(queryEmbedding,
    JSON.parse(card.content_embedding))}))].  A card whose embedding is
    [null] makes [b[i]] (or [b.reduce]) throw a [TypeError]: [None]. *)
Fixpoint score_all (queryEmbedding : list float) (cards : list A)
  : option (list (A * float)) :=
  match cards with
  | [] => Some []
  | card :: rest =>
      match embedding_of card with
      | None => None
      | Some b =>
          match score_all queryEmbedding rest with
          | None => None
          | Some rs => Some ((card, cosineSimilarity queryEmbedding b) :: rs)
          end
      end
  end.

(** The comparator [(a, b) => b.similarity - a.similarity]. *)
Definition compare_results (a b : A * float) : float := snd b - snd a.

(** [Array.prototype.sort] puts [a] after [b] when the comparator is
    positive (a NaN result counts as +0, i.e. "keep the order"). *)
Definition sorts_after (a b : A * float) : bool :=
  JsNum.gt (compare_results a b) 0.

(** [Array.prototype.sort] is stable (ES2019).  For a consistent
    comparator every stable sort gives the same array; the model is a
    stable insertion sort: each element goes after every element already
    placed that does not sort after it. *)
Fixpoint insert_result (x : A * float) (l : list (A * float)) : list (A * float) :=
  match l with
  | [] => [x]
  | y :: l' => if sorts_after y x then x :: y :: l' else y :: insert_result x l'
  end.

Definition sort_results (l : list (A * float)) : list (A * float) :=
  fold_left (fun acc x => insert_result x acc) l [].

(** The [results] array: mapped, [.filter(r => r.similarity > threshold)],
    then [.sort(...)]. *)
Definition rank_all (queryEmbedding : list float) (cards : list A)
  (threshold : float) : option (list (A * float)) :=
  match score_all queryEmbedding cards with
  | None => None
  | Some results =>
      Some (sort_results (List.filter (fun r => JsNum.gt (snd r) threshold) results))
  end.

(** Adjacent results are in the comparator's order: no result is followed
    by one that the comparator ranks higher. *)
Definition ranked_before (a b : A * float) : Prop := sorts_after a b = false.

End Pipeline.

Definition score_cards : list float -> list Card -> option (list (Card * float)) :=
  score_all content_embedding.

Definition rankedResults : list float -> list Card -> float ->
  option (list (Card * float)) :=
  rank_all content_embedding.

(** Steps 2 and 3 of [semanticSearch], from the query embedding on:
    [return results.map(r => r.card)]. *)
Definition semanticSearch_vec (queryEmbedding : list float) (cards : list Card)
  (threshold : float) : option (list Card) :=
  match rankedResults queryEmbedding cards threshold with
  | None => None
  | Some rs => Some (map fst rs)
  end.

Section WithModel.

(** [await getEmbedding(text)]: the external feature-extraction model
    (mean pooling, normalised), opaque to this development.  It awaits
    [pipeline(...)], which downloads and loads the model and can reject:
    [None] is that rejection. *)
Variable getEmbedding : string -> option (list float).

(** [export async function semanticSearch(query, cards, threshold = 0.6)]:
    a rejected [await getEmbedding(query)] rejects the search. *)
Definition semanticSearch (query : string) (cards : list Card)
  (threshold : float) : option (list Card) :=
  match getEmbedding query with
  | None => None
  | Some queryEmbedding => semanticSearch_vec queryEmbedding cards threshold
  end.

End WithModel.

(** The default [threshold = 0.6]: the literal denotes the nearest
    binary64 value, as in JavaScript. *)
#[warnings="-inexact-float"]
Definition default_threshold : float := 0.6.

End Similarity.

(* ------------------------------------------------------------------ *)
(** ** The search over the JavaScript heap *)

(** [semanticSearch] receives the [cards] array by reference; the array and
    the card objects live in the caller's heap.  The code reads them, builds
    fresh arrays ([map], [filter], the in-place [sort] of the filtered
    array, the final [map]) and returns the last one.  The intermediate
    arrays and the [{card, similarity}] objects are fresh and unreachable
    once the call returns, so they are local values here; the returned
    array is allocated in the heap. *)
Module SearchHeap.

Import Similarity.

Definition loc := positive.

Inductive obj :=
  | OCard (c : Card)
  | OArray (elems : list loc).

Record state := mkState {
  heap : gmap loc obj;
  next_loc : loc
}.

(** Every allocated location is below the allocation pointer. *)
Definition state_wf (st : state) : Prop :=
  forall l o, heap st !! l = Some o -> (l < next_loc st)%positive.

Definition alloc (o : obj) (st : state) : loc * state :=
  (next_loc st, mkState (<[next_loc st := o]> (heap st)) (Pos.succ (next_loc st))).

(** [card.content_embedding] on each element: an element that is not a
    card object throws. *)
Fixpoint deref_cards (h : gmap loc obj) (ls : list loc) : option (list (loc * Card)) :=
  match ls with
  | [] => Some []
  | l :: rest =>
      match h !! l with
      | Some (OCard c) =>
          match deref_cards h rest with
          | Some cs => Some ((l, c) :: cs)
          | None => None
          end
      | _ => None
      end
  end.

Definition read_cards (h : gmap loc obj) (cardsRef : loc) : option (list (loc * Card)) :=
  match h !! cardsRef with
  | Some (OArray ls) => deref_cards h ls
  | _ => None
  end.

(** [semanticSearch] from the query embedding on, returning the reference
    of the fresh result array ([results.map(r => r.card)]: references to
    the candidates' own card objects). *)
Definition semanticSearch_heap (queryEmbedding : list float) (cardsRef : loc)
  (threshold : float) (st : state) : option (loc * state) :=
  match read_cards (heap st) cardsRef with
  | None => None
  | Some cards =>
      match rank_all (fun lc => content_embedding (snd lc)) queryEmbedding cards threshold with
      | None => None
      | Some results => Some (alloc (OArray (map (fun r => fst (fst r)) results)) st)
      end
  end.

End SearchHeap.

(* ------------------------------------------------------------------ *)
(** ** Embedding cache (part_001, "Caching Strategy") *)

Module Cache.

(** [interface EmbeddingCache { [textHash: string]: { embedding: number[];
    timestamp: number; ttl: number } }] *)
Record CacheEntry := mkEntry {
  embedding : list float;
  timestamp : Z;   (* [Date.now()] at insertion, in milliseconds *)
  ttl : Z          (* seconds *)
}.

Abbreviation EmbeddingCache := (gmap string CacheEntry).

(** ASCII whitespace ([\s] restricted to ASCII). *)
Definition is_space (c : ascii) : bool :=
  match nat_of_ascii c with
  | 9 | 10 | 11 | 12 | 13 | 32 => true
  | _ => false
  end.

(** Case folding, on ASCII letters. *)
Definition lower (c : ascii) : ascii :=
  let n := nat_of_ascii c in
  if (65 <=? n)%nat && (n <=? 90)%nat then ascii_of_nat (n + 32) else c.

Fixpoint map_string (f : ascii -> ascii) (s : string) : string :=
  match s with
  | EmptyString => EmptyString
  | String c rest => String (f c) (map_string f rest)
  end.

(** Trim and collapse: whitespace before the first word and after the last
    is dropped, every run between two words becomes one space. *)
Fixpoint collapse_ws (started pending : bool) (s : string) : string :=
  match s with
  | EmptyString => EmptyString
  | String c rest =>
      if is_space c then collapse_ws started started rest
      else if pending then String " " (String c (collapse_ws true false rest))
      else String c (collapse_ws true false rest)
  end.

(** Modelled from the spec: the text normalisation of the cache key
    ("normalizing text (trim, case-fold, collapse whitespace)"), which the
    repository does not implement. *)
Definition normalizeText (text : string) : string :=
  collapse_ws false false (map_string lower text).

(** The TTL every entry gets: [24 * 60 * 60] seconds. *)
Definition default_ttl : Z := 24 * 60 * 60.

Section WithHash.

(** The digest function (MD5 or SHA-256 in the plan), opaque here. *)
Variable hash : string -> string.

(** Modelled from the spec: [hashText], called by the cache but defined
    nowhere in the repository ("Cache key is computed by normalizing text
    ... then hashing"). *)
Definition hashText (text : string) : string := hash (normalizeText text).

(** [function getCachedEmbedding(text: string): number[] | null], with the
    clock reading [Date.now()] and the cache passed explicitly; returns the
    result and the cache afterwards. *)
Definition getCachedEmbedding (text : string) (now : Z) (cache : EmbeddingCache)
  : option (list float) * EmbeddingCache :=
  let h := hashText text in
  match cache !! h with
  | Some cached =>
      if (now - timestamp cached <? ttl cached * 1000)%Z
      then (Some (embedding cached), cache)
      else (None, delete h cache)
  | None => (None, delete h cache)
  end.

(** [function cacheEmbedding(text: string, embedding: number[])] *)
Definition cacheEmbedding (text : string) (emb : list float) (now : Z)
  (cache : EmbeddingCache) : EmbeddingCache :=
  <[hashText text := mkEntry emb now default_ttl]> cache.

(** A sequence of cache calls, each with its clock reading. *)
Inductive cache_op :=
  | OpGet (text : string) (now : Z)
  | OpPut (text : string) (emb : list float) (now : Z).

Definition run_op (cache : EmbeddingCache) (op : cache_op) : EmbeddingCache :=
  match op with
  | OpGet text now => snd (getCachedEmbedding text now cache)
  | OpPut text emb now => cacheEmbedding text emb now cache
  end.

Definition run_ops (ops : list cache_op) (cache : EmbeddingCache) : EmbeddingCache :=
  fold_left run_op ops cache.

(** Calls that cannot store an entry under the key [h]. *)
Definition no_put_at (h : string) (op : cache_op) : Prop :=
  match op with
  | OpPut t _ _ => hashText t <> h
  | OpGet _ _ => True
  end.

End WithHash.

End Cache.

(* ------------------------------------------------------------------ *)
(** ** Interchange document and import *)

(** The repository has no serializer: [utils/deckSerializer.ts] and the
    [POST /github/import] handler are planned (part_000, tasks 3B.1 and
    3B.5) but not written.  They are modelled on the interchange format of
    the spec (section 6), at the level of parsed JSON values. *)
Module Interchange.

Local Open Scope string_scope.

#[warnings="-register-all"]
Inductive json :=
  | JNull
  | JBool (b : bool)
  | JNum (n : float)
  | JStr (s : string)
  | JArr (items : list json)
  | JObj (fields : list (string * json)).

Record Deck := mkDeck {
  deck_name : string;
  deck_description : string
}.

Record CardRecord := mkCardRecord {
  id : string;
  frontTitle : string;
  backContent : string;
  tags : list string;
  favorite : bool;
  embedding : option (list float)
}.

(** The embedding length of the model ([all-MiniLM-L6-v2]: 384). *)
Definition embedding_dim : nat := 384.

(** A card whose embedding is absent is re-embedded lazily. *)
Definition needsReembedding (c : CardRecord) : bool :=
  match embedding c with None => true | Some _ => false end.

(** [JSON.parse] keeps the last of duplicated keys. *)
Definition lookup_field (k : string) (fields : list (string * json)) : option json :=
  match find (fun kv => String.eqb (fst kv) k) (rev fields) with
  | Some (_, v) => Some v
  | None => None
  end.

Fixpoint traverse {A B} (f : A -> option B) (l : list A) : option (list B) :=
  match l with
  | [] => Some []
  | x :: rest =>
      match f x, traverse f rest with
      | Some y, Some ys => Some (y :: ys)
      | _, _ => None
      end
  end.

Definition json_string (j : json) : option string :=
  match j with JStr s => Some s | _ => None end.

Definition json_bool (j : json) : option bool :=
  match j with JBool b => Some b | _ => None end.

Definition json_number (j : json) : option float :=
  match j with JNum n => Some n | _ => None end.

Definition string_field (k : string) (fields : list (string * json)) : option string :=
  match lookup_field k fields with Some j => json_string j | None => None end.

(** Modelled from the spec: the embedding of a card record is a plain
    numeric array, or [null]; the reader does not require it. *)
Definition embedding_to_json (e : option (list float)) : json :=
  match e with
  | None => JNull
  | Some v => JArr (map JNum v)
  end.

(** Modelled from the spec: [None] is a malformed field; [Some None] an
    absent embedding (missing key or [null]). *)
Definition embedding_of_json (j : option json) : option (option (list float)) :=
  match j with
  | None | Some JNull => Some None
  | Some (JArr xs) =>
      match traverse json_number xs with
      | Some v => Some (Some v)
      | None => None
      end
  | Some _ => None
  end.

(** Modelled from the spec: a CardRecord of the interchange format. *)
Definition card_to_json (c : CardRecord) : json :=
  JObj [("id", JStr (id c));
        ("frontTitle", JStr (frontTitle c));
        ("backContent", JStr (backContent c));
        ("tags", JArr (map JStr (tags c)));
        ("favorite", JBool (favorite c));
        ("embedding", embedding_to_json (embedding c))].

(** Modelled from the spec: schema validation of one CardRecord. *)
Definition card_of_json (j : json) : option CardRecord :=
  match j with
  | JObj fs =>
      match string_field "id" fs, string_field "frontTitle" fs,
            string_field "backContent" fs, lookup_field "tags" fs,
            lookup_field "favorite" fs, embedding_of_json (lookup_field "embedding" fs) with
      | Some i, Some ft, Some bc, Some (JArr ts), Some (JBool fav), Some e =>
          match traverse json_string ts with
          | Some ts' => Some (mkCardRecord i ft bc ts' fav e)
          | None => None
          end
      | _, _, _, _, _, _ => None
      end
  | _ => None
  end.

Definition format_version : float := 1.

(** Modelled from the spec: [serialize(deck, cards) -> InterchangeDocument],
    cards in array order. *)
Definition serialize (d : Deck) (cards : list CardRecord) : json :=
  JObj [("formatVersion", JNum format_version);
        ("name", JStr (deck_name d));
        ("description", JStr (deck_description d));
        ("cards", JArr (map card_to_json cards))].

(** Modelled from the spec: [deserialize(doc) -> (deck, cards)], [None]
    when the document fails schema validation. *)
Definition deserialize (doc : json) : option (Deck * list CardRecord) :=
  match doc with
  | JObj fs =>
      match lookup_field "formatVersion" fs, string_field "name" fs,
            string_field "description" fs, lookup_field "cards" fs with
      | Some (JNum _), Some n, Some desc, Some (JArr cs) =>
          match traverse card_of_json cs with
          | Some cards => Some (mkDeck n desc, cards)
          | None => None
          end
      | _, _, _, _ => None
      end
  | _ => None
  end.

(** A document whose card records carry no [embedding] key at all. *)
Definition drop_embedding_key (j : json) : json :=
  match j with
  | JObj fs => JObj (List.filter (fun kv => negb (String.eqb (fst kv) "embedding")) fs)
  | _ => j
  end.

Definition strip_embeddings (doc : json) : json :=
  match doc with
  | JObj fs =>
      JObj (map (fun kv => if String.eqb (fst kv) "cards"
                           then match snd kv with
                                | JArr cs => (fst kv, JArr (map drop_embedding_key cs))
                                | v => (fst kv, v)
                                end
                           else kv) fs)
  | _ => doc
  end.

Definition clear_embedding (c : CardRecord) : CardRecord :=
  mkCardRecord (id c) (frontTitle c) (backContent c) (tags c) (favorite c) None.

(** A plain numeric array, or [null]. *)
Definition plain_numeric_or_null (j : json) : bool :=
  match j with
  | JNull => true
  | JArr xs => forallb (fun x => match x with JNum _ => true | _ => false end) xs
  | _ => false
  end.

(** The vector invariant of the data model: absent, or of the model's
    length. *)
Definition embedding_ok (c : CardRecord) : Prop :=
  match embedding c with
  | None => True
  | Some v => length v = embedding_dim
  end.

Inductive SyncError := MalformedDocument.

(** The local store: each deck id with its deck and its ordered cards. *)
Abbreviation LocalStore := (gmap string (Deck * list CardRecord)).

(** Modelled from the spec: import of a fetched document into a deck
    ("parse deck.json, create deck, create all cards"); the document is
    validated as a whole first, and a valid one overwrites the deck's local
    state (one-directional sync, no merge). *)
Definition importDocument (deckId : string) (doc : json) (store : LocalStore)
  : (SyncError + string) * LocalStore :=
  match deserialize doc with
  | None => (inl MalformedDocument, store)
  | Some (d, cards) => (inr deckId, <[deckId := (d, cards)]> store)
  end.

End Interchange.

(* ------------------------------------------------------------------ *)
(** ** Desktop score (part_001, "SQLite (Desktop - Tauri)") *)

Module DesktopSimilarity.

Local Open Scope float_scope.

(** [function cosineSimilarity(vec1, vec2)], computed in application code
    on the desktop build. *)
Definition cosineSimilarity (vec1 vec2 : list float) : float :=
  let dotProduct := JsNum.reduce_idx (fun sum a i => sum + a * JsNum.index_num vec2 i) 0 vec1 in
  let magnitude1 := PrimFloat.sqrt (JsNum.reduce_idx (fun sum a _ => sum + a * a) 0 vec1) in
  let magnitude2 := PrimFloat.sqrt (JsNum.reduce_idx (fun sum a _ => sum + a * a) 0 vec2) in
  dotProduct / (magnitude1 * magnitude2).

End DesktopSimilarity.

(* ------------------------------------------------------------------ *)
(** ** Platform schema (part_001, "Migration Strategy") *)

Module PlatformSchema.

Local Open Scope string_scope.

Section WithSchema.

(** The field descriptions are opaque. *)
Context {V : Type}.

(** [const schema = { universal, pgvector, sqlite_vss }] *)
Record Schema := mkSchema {
  universal : gmap string V;
  pgvector : gmap string V;
  sqlite_vss : gmap string V
}.

(** The global [schema] object and the global flag [useVectorSearch]
    ([&&] and [?:] only test its truthiness). *)
Variable schema : Schema.
Variable useVectorSearch : bool.

(** [{...target, ...source}]: the source's properties override. *)
Definition spread (target source : gmap string V) : gmap string V :=
  source ∪ target.

(** [function getSchema(platform)] *)
Definition getSchema (platform : string) : gmap string V :=
  spread
    (spread
       (spread ∅ (universal schema))
       (if String.eqb platform "web" then pgvector schema else ∅))
    (if String.eqb platform "desktop" && useVectorSearch then sqlite_vss schema else ∅).

End WithSchema.

End PlatformSchema.

(* ------------------------------------------------------------------ *)
(** ** Keyboard shortcut (part_000, task 4B.1) *)

Module Shortcuts.

Local Open Scope string_scope.

(** The fields of a [KeyboardEvent] the handler reads. *)
Record KeyboardEvent := mkKeyEvent {
  metaKey : bool;
  ctrlKey : bool;
  key : string
}.

(** [currentDeckId]: a deck id, or [null] / [undefined] outside a deck. *)
Inductive deck_id :=
  | DeckId (s : string)
  | DeckIdNull
  | DeckIdUndefined.

(** [Object.is] on these values. *)
Definition deck_id_eqb (a b : deck_id) : bool :=
  match a, b with
  | DeckId s, DeckId t => String.eqb s t
  | DeckIdNull, DeckIdNull | DeckIdUndefined, DeckIdUndefined => true
  | _, _ => false
  end.

(** [if (currentDeckId)]: the empty string is falsy. *)
Definition truthy (d : deck_id) : bool :=
  match d with
  | DeckId s => negb (String.eqb s "")
  | _ => false
  end.

(** What the handler does: [e.preventDefault()], [openCreateCard(id)],
    [openCreateDeck()]. *)
Inductive action :=
  | PreventDefault
  | OpenCreateCard (d : deck_id)
  | OpenCreateDeck.

(** [function handleKeyDown(e: KeyboardEvent)], closing over the
    [currentDeckId] of the render that created it. *)
Definition handleKeyDown (currentDeckId : deck_id) (e : KeyboardEvent) : list action :=
  if (metaKey e || ctrlKey e) && String.eqb (key e) "n" then
    PreventDefault ::
      (if truthy currentDeckId then [OpenCreateCard currentDeckId] else [OpenCreateDeck])
  else [].

(** A registered [keydown] listener: the identity of the function object
    and the deck id its closure captured. *)
Record listener := mkListener {
  handler_id : nat;
  captured : deck_id
}.

(** The window's [keydown] listeners, the counter of function objects
    created, and the effect currently mounted (its handler; the handler's
    captured id is the effect's dependency [currentDeckId]). *)
Record hook_state := mkHook {
  listeners : list listener;
  fresh : nat;
  mounted : option listener
}.

Definition initial_hook : hook_state := mkHook [] 0 None.

(** [window.addEventListener('keydown', f)] ignores an [f] already
    registered. *)
Definition addEventListener (l : listener) (ls : list listener) : list listener :=
  if existsb (fun l' => Nat.eqb (handler_id l') (handler_id l)) ls then ls else ls ++ [l].

(** [window.removeEventListener('keydown', f)] *)
Definition removeEventListener (id : nat) (ls : list listener) : list listener :=
  List.filter (fun l => negb (Nat.eqb (handler_id l) id)) ls.

(** The effect body: a fresh [handleKeyDown] closure is registered. *)
Definition run_effect (d : deck_id) (st : hook_state) : hook_state :=
  let h := mkListener (fresh st) d in
  mkHook (addEventListener h (listeners st)) (S (fresh st)) (Some h).

(** The returned cleanup of the mounted effect. *)
Definition run_cleanup (st : hook_state) : hook_state :=
  match mounted st with
  | Some h => mkHook (removeEventListener (handler_id h) (listeners st)) (fresh st) None
  | None => st
  end.

Inductive lifecycle :=
  | Render (d : deck_id)
  | Unmount.

(** [useEffect(..., [currentDeckId])]: the effect runs on mount; on a
    re-render it re-runs, after the previous cleanup, only when the
    dependency changed ([Object.is]); the cleanup runs on unmount. *)
Definition hook_step (st : hook_state) (ev : lifecycle) : hook_state :=
  match ev with
  | Render d =>
      match mounted st with
      | None => run_effect d st
      | Some h => if deck_id_eqb (captured h) d then st else run_effect d (run_cleanup st)
      end
  | Unmount => run_cleanup st
  end.

Definition run_lifecycle (evs : list lifecycle) (st : hook_state) : hook_state :=
  fold_left hook_step evs st.

(** A [keydown] event: every registered listener runs, in order. *)
Definition dispatch (e : KeyboardEvent) (st : hook_state) : list action :=
  flat_map (fun l => handleKeyDown (captured l) e) (listeners st).

(** The window holds exactly the mounted effect's listener. *)
Definition hook_inv (st : hook_state) : Prop :=
  listeners st = match mounted st with Some h => [h] | None => [] end.

End Shortcuts.

(* ------------------------------------------------------------------ *)
(** ** API client (part_000, task 1C.4) *)

Module ApiClient.

Local Open Scope string_scope.

(** The value [getSupabaseToken()] returns. *)
Inductive js_value :=
  | JSString (s : string)
  | JSNull
  | JSUndefined.

(** [`${v}`] *)
Definition to_string (v : js_value) : string :=
  match v with
  | JSString s => s
  | JSNull => "null"
  | JSUndefined => "undefined"
  end.

Record Request := mkRequest {
  req_url : string;
  req_headers : list (string * string)
}.

Record Response := mkResponse {
  status : Z;
  body : string
}.

Section WithEnv.

(** The configured base URL, and [response.json()] on a body ([None]: the
    promise rejects with a [SyntaxError]). *)
Variable API_URL : string.
Variable json_parse : string -> option Interchange.json.

(** [api.get(url)] with the token [getSupabaseToken()] returned and the
    network as [fetch] ([None]: the promise rejects).  Returns the requests
    sent and the result ([None]: the returned promise rejects). *)
Definition api_get (token : js_value) (fetch : Request -> option Response) (url : string)
  : list Request * option Interchange.json :=
  let req := mkRequest (API_URL ++ url) [("Authorization", "Bearer " ++ to_string token)] in
  ([req],
   match fetch req with
   | None => None
   | Some response => json_parse (body response)
   end).

End WithEnv.

End ApiClient.

(* ------------------------------------------------------------------ *)
(** ** Export endpoint (part_000, task 3B.3) *)

Module GitHubExport.

Local Open Scope string_scope.

(** Calls that completed, in order. *)
Inductive event :=
  | Pushed (repo_url : string) (deck_json : Interchange.json)
  | Logged (deck_id repo_url : string).

(** [{"success": True, "repo_url": repo_url}] *)
Record ExportResponse := mkExportResponse {
  success : bool;
  resp_repo_url : string
}.

Section WithBackend.

Context {DeckRow CardRow Client : Type}.

(** The helpers the handler calls; [None] / [false]: the call raises. *)
Variable get_deck : string -> option DeckRow.
Variable get_cards : string -> option (list CardRow).
Variable serialize_deck : DeckRow -> list CardRow -> option Interchange.json.
Variable get_github_client : option Client.
Variable create_or_update_repo : Client -> string -> Interchange.json -> bool.
Variable log_export : string -> string -> bool.

(** [async def export_to_github(deck_id: str, repo_url: str)]: the calls
    made, and the response ([None]: an exception escapes the handler). *)
Definition export_to_github (deck_id repo_url : string)
  : list event * option ExportResponse :=
  match get_deck deck_id with
  | None => ([], None)
  | Some deck =>
  match get_cards deck_id with
  | None => ([], None)
  | Some cards =>
  match serialize_deck deck cards with
  | None => ([], None)
  | Some deck_json =>
  match get_github_client with
  | None => ([], None)
  | Some github_client =>
  if create_or_update_repo github_client repo_url deck_json then
    let pushed := [Pushed repo_url deck_json] in
    if log_export deck_id repo_url then
      ((pushed ++ [Logged deck_id repo_url])%list, Some (mkExportResponse true repo_url))
    else (pushed, None)
  else ([], None)
  end end end end.

End WithBackend.

End GitHubExport.

(* ================================================================== *)
(** * Proofs *)

(** ** Facts about binary64 operations, from their SpecFloat models *)

Module FloatFacts.

Import FloatClass.
Local Open Scope float_scope.

Lemma Prim2SF_zero : Prim2SF 0 = S754_zero false.
Proof. reflexivity. Qed.

Lemma Prim2SF_nan : Prim2SF nan = S754_nan.
Proof. reflexivity. Qed.

Lemma add_nan_l (x : float) : nan + x = nan.
Proof.
  apply Prim2SF_inj. rewrite add_spec, Prim2SF_nan. reflexivity.
Qed.

Lemma add_nan_r (x : float) : x + nan = nan.
Proof.
  apply Prim2SF_inj. rewrite add_spec, Prim2SF_nan.
  unfold SF64add, SFadd. destruct (Prim2SF x); reflexivity.
Qed.

Lemma mul_nan_r (x : float) : x * nan = nan.
Proof.
  apply Prim2SF_inj. rewrite mul_spec, Prim2SF_nan.
  unfold SF64mul, SFmul. destruct (Prim2SF x); reflexivity.
Qed.

Lemma div_nan_l (y : float) : nan / y = nan.
Proof.
  apply Prim2SF_inj. rewrite div_spec, Prim2SF_nan. reflexivity.
Qed.

Lemma gt_nan_l (t : float) : JsNum.gt nan t = false.
Proof.
  unfold JsNum.gt. rewrite ltb_spec, Prim2SF_nan.
  unfold SFltb, SFcompare. destruct (Prim2SF t); reflexivity.
Qed.

(** The sign of a rounded value does not influence its magnitude under
    round-to-nearest-even. *)
Lemma binary_round_aux_opp p e m x l :
  binary_round_aux p e true m x l = SFopp (binary_round_aux p e false m x l).
Proof.
  unfold binary_round_aux.
  destruct (shr_fexp p e m x l) as [r1 e1].
  destruct (shr_fexp p e _ e1 loc_Exact) as [r2 e2].
  destruct (shr_m r2); try reflexivity.
  destruct (Z.leb e2 (Z.sub e p)); reflexivity.
Qed.

Lemma binary_normalize_opp p e m ex :
  m <> 0%Z ->
  binary_normalize p e (Z.opp m) ex false = SFopp (binary_normalize p e m ex false).
Proof.
  intros Hm. destruct m as [|q|q]; [congruence| |].
  - simpl. unfold binary_round.
    destruct (shl_align _ _ _). apply binary_round_aux_opp.
  - simpl. unfold binary_round.
    destruct (shl_align _ _ _). rewrite binary_round_aux_opp.
    destruct (binary_round_aux _ _ false _ _ _); simpl;
      rewrite ?negb_involutive; reflexivity.
Qed.

Lemma SFpos_opp f : SFpos f = true -> SFpos (SFopp f) = false.
Proof. destruct f as [s|s| |s m e]; try destruct s; simpl; auto. Qed.

Lemma SFsub_antisym p e u v :
  SFpos (SFsub p e u v) = true -> SFpos (SFsub p e v u) = false.
Proof.
  destruct u as [su|su| |su mu eu], v as [sv|sv| |sv mv ev];
    [ .. | unfold SFsub; rewrite (Z.min_comm ev eu)];
    [ try destruct su; try destruct sv; simpl; auto .. |].
  set (A := cond_Zopp su _). set (B := cond_Zopp sv _). intros H.
  destruct (Z.eq_dec (Z.sub A B) 0%Z) as [H0|H0].
  - rewrite H0 in H. discriminate H.
  - replace (Z.sub B A) with (Z.opp (Z.sub A B)) by lia.
    rewrite binary_normalize_opp by exact H0. now apply SFpos_opp.
Qed.

Lemma sub_pos_antisym (x y : float) :
  JsNum.gt (y - x) 0 = true -> JsNum.gt (x - y) 0 = false.
Proof.
  unfold JsNum.gt. rewrite !ltb_spec, !sub_spec, Prim2SF_zero.
  apply SFsub_antisym.
Qed.

End FloatFacts.

(** ** Ranking: the filter and the stable sort *)

Module SimilarityProofs.

Import Similarity.
Local Open Scope float_scope.

Section Generic.

Context {A : Type} (embedding_of : A -> option (list float)).

Lemma sorts_after_antisym (x y : A * float) :
  sorts_after y x = true -> sorts_after x y = false.
Proof. unfold sorts_after, compare_results. apply FloatFacts.sub_pos_antisym. Qed.

Lemma insert_result_perm (x : A * float) (l : list (A * float)) :
  Permutation (insert_result x l) (x :: l).
Proof.
  induction l as [|y l IH]; simpl; [reflexivity|].
  destruct (sorts_after y x); [reflexivity|].
  rewrite IH. apply perm_swap.
Qed.

Lemma sort_results_perm_aux (l acc : list (A * float)) :
  Permutation (fold_left (fun acc x => insert_result x acc) l acc) (l ++ acc).
Proof.
  revert acc. induction l as [|x l IH]; intros acc; simpl; [reflexivity|].
  rewrite IH, insert_result_perm. symmetry. apply Permutation_middle.
Qed.

Lemma sort_results_perm (l : list (A * float)) :
  Permutation (sort_results l) l.
Proof.
  unfold sort_results. rewrite sort_results_perm_aux, app_nil_r. reflexivity.
Qed.

Lemma insert_result_hd (x y : A * float) (l : list (A * float)) :
  HdRel (@ranked_before A) y l -> ranked_before y x ->
  HdRel (@ranked_before A) y (insert_result x l).
Proof.
  intros Hl Hyx. destruct l as [|z l]; simpl.
  - constructor. exact Hyx.
  - destruct (sorts_after z x); constructor; [exact Hyx|].
    now inversion Hl.
Qed.

Lemma insert_result_sorted (x : A * float) (l : list (A * float)) :
  Sorted (@ranked_before A) l -> Sorted (@ranked_before A) (insert_result x l).
Proof.
  induction l as [|y l IH]; intros Hs; simpl.
  - repeat constructor.
  - apply Sorted_inv in Hs as [Hl Hhd].
    destruct (sorts_after y x) eqn:Hyx.
    + constructor; [constructor; assumption|].
      constructor. unfold ranked_before. now apply sorts_after_antisym.
    + constructor; [now apply IH|].
      apply insert_result_hd; assumption.
Qed.

Lemma sort_results_sorted (l : list (A * float)) :
  Sorted (@ranked_before A) (sort_results l).
Proof.
  unfold sort_results.
  assert (Hgen : forall acc, Sorted (@ranked_before A) acc ->
    Sorted (@ranked_before A) (fold_left (fun acc x => insert_result x acc) l acc)).
  { induction l as [|x l IH]; intros acc Hacc; simpl; [exact Hacc|].
    apply IH, insert_result_sorted, Hacc. }
  apply Hgen. constructor.
Qed.

(** Every scored entry pairs a card with the cosine score of its stored
    embedding against the query. *)
Lemma score_cards_spec (q : list float) (cards : list A) scored :
  score_all embedding_of q cards = Some scored ->
  Forall (fun r => exists b, embedding_of (fst r) = Some b /\
                             snd r = cosineSimilarity q b) scored /\
  map fst scored = cards.
Proof.
  revert scored. induction cards as [|c cs IH]; intros scored H; simpl in H.
  - injection H as <-. split; constructor.
  - destruct (embedding_of c) as [b|] eqn:Hc; [|discriminate].
    destruct (score_all embedding_of q cs) as [rs|]; [|discriminate].
    injection H as <-. destruct (IH rs eq_refl) as [Hf Hm].
    split; [constructor; [exists b; split; auto | exact Hf] | simpl; now rewrite Hm].
Qed.

Lemma score_cards_total (q : list float) (cards : list A) :
  Forall (fun c => embedding_of c <> None) cards ->
  exists scored, score_all embedding_of q cards = Some scored.
Proof.
  induction 1 as [|c cs Hc _ [rs Hrs]]; simpl; [eauto|].
  destruct (embedding_of c); [|congruence].
  rewrite Hrs. eauto.
Qed.

(** What [rankedResults] returns, in terms of the scored candidates. *)
Lemma rankedResults_spec (q : list float) (cards : list A) (t : float) rs :
  rank_all embedding_of q cards t = Some rs ->
  exists scored,
    score_all embedding_of q cards = Some scored /\
    Permutation rs (List.filter (fun r => JsNum.gt (snd r) t) scored) /\
    Sorted (@ranked_before A) rs.
Proof.
  unfold rank_all. destruct (score_all embedding_of q cards) as [scored|]; [|discriminate].
  intros H. injection H as <-. exists scored. split; [reflexivity|]. split.
  - apply sort_results_perm.
  - apply sort_results_sorted.
Qed.

Lemma rankedResults_member (q : list float) (cards : list A) (t : float) rs r :
  rank_all embedding_of q cards t = Some rs -> In r rs ->
  JsNum.gt (snd r) t = true /\
  exists b, embedding_of (fst r) = Some b /\ snd r = cosineSimilarity q b.
Proof.
  intros H Hin. destruct (rankedResults_spec q cards t rs H) as (scored & Hs & Hp & _).
  apply (Permutation_in r Hp) in Hin. apply filter_In in Hin as [Hin Hgt].
  split; [exact Hgt|].
  destruct (score_cards_spec q cards scored Hs) as [Hf _].
  rewrite List.Forall_forall in Hf. exact (Hf r Hin).
Qed.

End Generic.

End SimilarityProofs.

(** ** NaN and zero propagation through [cosineSimilarity] *)

Module CosineFacts.

Import Similarity FloatClass.
Local Open Scope float_scope.

Lemma reduce_idx_inv (P : float -> Prop) f init (l : list float) :
  P init -> (forall acc x i, P acc -> In x l -> P (f acc x i)) ->
  P (JsNum.reduce_idx f init l).
Proof.
  unfold JsNum.reduce_idx. intros Hinit Hstep.
  assert (Hgen : forall l' acc, incl l' l -> P (fst acc) ->
    P (fst (fold_left (fun acc x => (f (fst acc) x (snd acc), S (snd acc))) l' acc))).
  { induction l' as [|x l' IH]; intros acc Hincl Hacc; simpl; [exact Hacc|].
    apply IH; [intros y Hy; apply Hincl; now right|].
    apply Hstep; [exact Hacc|]. apply Hincl. now left. }
  apply Hgen; [apply incl_refl | exact Hinit].
Qed.

Lemma index_num_out (b : list float) i :
  (length b <= i)%nat -> JsNum.index_num b i = nan.
Proof.
  intros H. unfold JsNum.index_num.
  destruct (nth_error b i) eqn:E; [|reflexivity].
  apply nth_error_None in H. congruence.
Qed.

Lemma dot_fold_nan (b l : list float) i :
  fst (fold_left (fun acc x => (fst acc + x * JsNum.index_num b (snd acc), S (snd acc)))
         l (nan, i)) = nan.
Proof.
  revert i. induction l as [|x l IH]; intros i; simpl; [reflexivity|].
  rewrite FloatFacts.add_nan_l. apply IH.
Qed.

Lemma dot_fold_short (b l : list float) s i :
  (length b < i + length l)%nat -> (i <= length b)%nat ->
  fst (fold_left (fun acc x => (fst acc + x * JsNum.index_num b (snd acc), S (snd acc)))
         l (s, i)) = nan.
Proof.
  revert s i. induction l as [|x l IH]; intros s i Hlt Hle; simpl in *; [lia|].
  destruct (Nat.eq_dec i (length b)) as [->|Hne].
  - rewrite index_num_out by lia.
    rewrite FloatFacts.mul_nan_r, FloatFacts.add_nan_r. apply dot_fold_nan.
  - apply IH; lia.
Qed.

(** A candidate shorter than the query reads [b[i] === undefined]. *)
Lemma cosineSimilarity_short (q b : list float) :
  (length b < length q)%nat -> cosineSimilarity q b = nan.
Proof.
  intros H. unfold cosineSimilarity, dot, JsNum.reduce_idx.
  rewrite dot_fold_short by (simpl; lia). apply FloatFacts.div_nan_l.
Qed.

Lemma eqb_zero (x : float) : PrimFloat.eqb x 0 = true -> exists s, Prim2SF x = S754_zero s.
Proof.
  rewrite FloatAxioms.eqb_spec, FloatFacts.Prim2SF_zero. unfold SFeqb, SFcompare.
  destruct (Prim2SF x) as [s|s| |s m e]; try destruct s; simpl; try discriminate; eauto.
Qed.

Lemma mul_zero_or_nan (x y : float) :
  zero_or_nan (Prim2SF x) = true \/ zero_or_nan (Prim2SF y) = true ->
  zero_or_nan (Prim2SF (x * y)) = true.
Proof.
  rewrite mul_spec. unfold SF64mul, SFmul.
  destruct (Prim2SF x) as [sx|sx| |sx mx ex], (Prim2SF y) as [sy|sy| |sy my ey];
    simpl; intros [H|H]; try discriminate; reflexivity.
Qed.

Lemma add_pzero_or_nan (x y : float) :
  pzero_or_nan (Prim2SF x) = true -> zero_or_nan (Prim2SF y) = true ->
  pzero_or_nan (Prim2SF (x + y)) = true.
Proof.
  rewrite add_spec. unfold SF64add, SFadd.
  destruct (Prim2SF x) as [sx|sx| |sx mx ex], (Prim2SF y) as [sy|sy| |sy my ey];
    try destruct sx; try destruct sy; simpl; intros H1 H2; try discriminate; reflexivity.
Qed.

Lemma dot_pzero_or_nan (q b : list float) :
  (forall x i, In x q -> zero_or_nan (Prim2SF (x * JsNum.index_num b i)) = true) ->
  pzero_or_nan (Prim2SF (dot q b)) = true.
Proof.
  intros H. unfold dot.
  apply (reduce_idx_inv (fun f => pzero_or_nan (Prim2SF f) = true)).
  - reflexivity.
  - intros acc x i Hacc Hx. apply add_pzero_or_nan; auto.
Qed.

Lemma magnitude_zero_vector (v : list float) :
  zero_vector v = true -> Prim2SF (magnitude v) = S754_zero false.
Proof.
  intros H. unfold magnitude. rewrite sqrt_spec.
  assert (Hs : Prim2SF (JsNum.reduce_idx (fun sum x _ => sum + x * x) 0 v) = S754_zero false).
  { apply (reduce_idx_inv (fun f => Prim2SF f = S754_zero false)); [reflexivity|].
    intros acc x _ Hacc Hx. unfold zero_vector in H. rewrite forallb_forall in H.
    destruct (eqb_zero x (H x Hx)) as [s Hxs].
    rewrite add_spec, mul_spec, Hacc, Hxs. destruct s; reflexivity. }
  rewrite Hs. reflexivity.
Qed.

Lemma div_pzero_or_nan (x y : float) :
  pzero_or_nan (Prim2SF x) = true -> zero_or_nan (Prim2SF y) = true -> x / y = nan.
Proof.
  intros Hx Hy. apply Prim2SF_inj. rewrite div_spec, FloatFacts.Prim2SF_nan.
  revert Hx Hy. unfold SF64div, SFdiv.
  destruct (Prim2SF x) as [sx|sx| |sx mx ex], (Prim2SF y) as [sy|sy| |sy my ey];
    try destruct sx; simpl; intros H1 H2; try discriminate; reflexivity.
Qed.

Lemma cosineSimilarity_zero (q b : list float) :
  zero_vector q = true \/ zero_vector b = true -> cosineSimilarity q b = nan.
Proof.
  intros Hz. unfold cosineSimilarity. apply div_pzero_or_nan.
  - apply dot_pzero_or_nan. intros x i Hx. apply mul_zero_or_nan.
    destruct Hz as [Hq|Hb].
    + left. unfold zero_vector in Hq. rewrite forallb_forall in Hq.
      destruct (eqb_zero x (Hq x Hx)) as [s ->]. reflexivity.
    + right. unfold JsNum.index_num. destruct (nth_error b i) as [y|] eqn:Hy; [|reflexivity].
      unfold zero_vector in Hb. rewrite forallb_forall in Hb.
      apply nth_error_In in Hy. destruct (eqb_zero y (Hb y Hy)) as [s ->]. reflexivity.
  - apply mul_zero_or_nan. destruct Hz as [Hq|Hb].
    + left. now rewrite magnitude_zero_vector.
    + right. now rewrite magnitude_zero_vector.
Qed.

End CosineFacts.

(** ** Claims about [semanticSearch] *)

Module SearchClaims.

Import Similarity SimilarityProofs.
Local Open Scope float_scope.
Local Open Scope string_scope.

(** C1 (as amended).  For every query vector, candidate list and threshold,
    a successful [semanticSearch] returns the cards of a list [rs] of
    (card, score) pairs such that: every score is strictly greater than the
    threshold; [rs] is a permutation of exactly the scored candidates whose
    score exceeds the threshold (no limit is applied: every match is
    returned); and no entry of [rs] is followed by one the comparator
    [b.similarity - a.similarity] ranks higher (non-increasing scores). *)
Theorem semanticSearch_ranking (q : list float) (cards : list Card) (t : float)
  (out : list Card) :
  semanticSearch_vec q cards t = Some out ->
  exists rs scored,
    out = map fst rs /\
    (forall r, In r rs -> JsNum.gt (snd r) t = true) /\
    score_cards q cards = Some scored /\
    Permutation rs (List.filter (fun r => JsNum.gt (snd r) t) scored) /\
    Sorted ranked_before rs.
Proof.
  unfold semanticSearch_vec. destruct (rankedResults q cards t) as [rs|] eqn:Hr;
    [|discriminate].
  intros H. injection H as <-.
  destruct (rankedResults_spec content_embedding q cards t rs Hr) as (scored & Hs & Hp & Hsort).
  exists rs, scored. repeat split; auto.
  intros r Hin. exact (proj1 (rankedResults_member content_embedding q cards t rs r Hr Hin)).
Qed.

Lemma semanticSearch_ranking_witness :
  semanticSearch_vec [1; 0] [mkCard "x" (Some [1; 0]); mkCard "y" (Some [0; 1])]
    default_threshold = Some [mkCard "x" (Some [1; 0])] /\
  exists rs scored,
    [mkCard "x" (Some [1; 0])] = map fst rs /\
    (forall r, In r rs -> JsNum.gt (snd r) default_threshold = true) /\
    score_cards [1; 0] [mkCard "x" (Some [1; 0]); mkCard "y" (Some [0; 1])] = Some scored /\
    Permutation rs (List.filter (fun r => JsNum.gt (snd r) default_threshold) scored) /\
    Sorted ranked_before rs.
Proof.
  split; [vm_compute; reflexivity|].
  apply (semanticSearch_ranking [1; 0]
           [mkCard "x" (Some [1; 0]); mkCard "y" (Some [0; 1])] default_threshold).
  vm_compute. reflexivity.
Defined.

(** C1 counterexample.  Two candidates with equal scores, ids "b" then "a":
    the stable sort keeps them in input order, so equal scores are not
    ordered by id and the scores are not strictly decreasing. *)
Lemma semanticSearch_ties_keep_input_order :
  rankedResults [1] [mkCard "b" (Some [1]); mkCard "a" (Some [1])] default_threshold
  = Some [(mkCard "b" (Some [1]), 1); (mkCard "a" (Some [1]), 1)].
Proof. vm_compute. reflexivity. Qed.

(** C2 (as amended).  Every card returned by [semanticSearch] has an
    embedding at least as long as the query vector: a shorter candidate
    reads [b[i] === undefined], scores NaN and fails [> threshold]. *)
Theorem semanticSearch_no_shorter_candidates (q : list float) (cards : list Card)
  (t : float) (out : list Card) :
  semanticSearch_vec q cards t = Some out ->
  forall c, In c out ->
  exists b, content_embedding c = Some b /\ (length q <= length b)%nat.
Proof.
  unfold semanticSearch_vec. destruct (rankedResults q cards t) as [rs|] eqn:Hr;
    [|discriminate].
  intros H. injection H as <-. intros c Hc.
  apply in_map_iff in Hc as [r [<- Hin]].
  destruct (rankedResults_member content_embedding q cards t rs r Hr Hin) as [Hgt (b & Hb & Hs)].
  exists b. split; [exact Hb|].
  destruct (Nat.lt_ge_cases (length b) (length q)) as [Hlt|Hge]; [|exact Hge].
  rewrite Hs, CosineFacts.cosineSimilarity_short in Hgt by exact Hlt.
  rewrite FloatFacts.gt_nan_l in Hgt. discriminate.
Qed.

Lemma semanticSearch_no_shorter_candidates_witness :
  semanticSearch_vec [1; 0] [mkCard "x" (Some [1]); mkCard "y" (Some [1; 0])] 0
    = Some [mkCard "y" (Some [1; 0])] /\
  exists b, content_embedding (mkCard "y" (Some [1; 0])) = Some b /\
            (length [1; 0] <= length b)%nat.
Proof.
  split; [vm_compute; reflexivity|].
  apply (semanticSearch_no_shorter_candidates [1; 0]
           [mkCard "x" (Some [1]); mkCard "y" (Some [1; 0])] 0
           [mkCard "y" (Some [1; 0])]); [vm_compute; reflexivity|].
  now left.
Defined.

(** C2 counterexample.  No length guard exists: a candidate longer than
    the query is scored on the query's indices and is returned, here with
    threshold 0. *)
Lemma semanticSearch_longer_candidate_returned :
  semanticSearch_vec [1] [mkCard "c" (Some [1; 0])] 0
  = Some [mkCard "c" (Some [1; 0])].
Proof. vm_compute. reflexivity. Qed.

(** C10.  When the query or the candidate has magnitude zero (every
    component [=== 0]), [cosineSimilarity] computes [0 / 0] and returns NaN;
    the search does not fail on it (it returns a result whenever every card
    has a stored embedding), and no returned card has a zero embedding or
    comes from a zero query. *)
Theorem zero_magnitude_excluded (q : list float) (cards : list Card) (t : float) :
  Forall (fun c => content_embedding c <> None) cards ->
  (forall b, zero_vector q = true \/ zero_vector b = true ->
             cosineSimilarity q b = nan) /\
  exists out, semanticSearch_vec q cards t = Some out /\
    forall c, In c out -> exists b, content_embedding c = Some b /\
      zero_vector q = false /\ zero_vector b = false.
Proof.
  intros Hall. split; [intros b; apply CosineFacts.cosineSimilarity_zero|].
  destruct (score_cards_total content_embedding q cards Hall) as [scored Hs].
  unfold semanticSearch_vec, rankedResults, rank_all. rewrite Hs.
  eexists; split; [reflexivity|]. intros c Hc.
  assert (Hr : rankedResults q cards t =
    Some (sort_results (List.filter (fun r => JsNum.gt (snd r) t) scored)))
    by (unfold rankedResults, rank_all; now rewrite Hs).
  apply in_map_iff in Hc as [r [<- Hin]].
  destruct (rankedResults_member content_embedding q cards t _ r Hr Hin) as [Hgt (b & Hb & Hsc)].
  exists b. split; [exact Hb|].
  destruct (zero_vector q) eqn:Hq, (zero_vector b) eqn:Hzb; auto;
    rewrite Hsc, CosineFacts.cosineSimilarity_zero, FloatFacts.gt_nan_l in Hgt;
    auto; discriminate.
Qed.

Lemma zero_magnitude_excluded_witness :
  semanticSearch_vec [1; 0] [mkCard "z" (Some [0; 0]); mkCard "x" (Some [1; 0])] 0
    = Some [mkCard "x" (Some [1; 0])] /\
  cosineSimilarity [1; 0] [0; 0] = nan /\
  exists out,
    semanticSearch_vec [1; 0] [mkCard "z" (Some [0; 0]); mkCard "x" (Some [1; 0])] 0
      = Some out /\
    forall c, In c out -> exists b, content_embedding c = Some b /\
      zero_vector [1; 0] = false /\ zero_vector b = false.
Proof.
  assert (Hall : Forall (fun c => content_embedding c <> None)
                   [mkCard "z" (Some [0; 0]); mkCard "x" (Some [1; 0])])
    by (repeat constructor; discriminate).
  destruct (zero_magnitude_excluded [1; 0]
              [mkCard "z" (Some [0; 0]); mkCard "x" (Some [1; 0])] 0 Hall) as [Hnan Hex].
  split; [vm_compute; reflexivity|]. split; [|exact Hex].
  apply Hnan. right. reflexivity.
Defined.

(** A remark next to C10, outside its statement: a query such as [[1e-200]]
    has a nonzero magnitude, but its squared component underflows, so the
    computed magnitude is 0 while the dot product is not; the score is then
    +Infinity (not NaN) and such a candidate passes any finite threshold. *)
#[warnings="-inexact-float"]
Lemma underflowing_query_scores_infinity :
  magnitude [1e-200] = 0 /\ cosineSimilarity [1e-200] [1] = infinity /\
  semanticSearch_vec [1e-200] [mkCard "c" (Some [1])] default_threshold
    = Some [mkCard "c" (Some [1])].
Proof. vm_compute. repeat split; reflexivity. Qed.

End SearchClaims.

(** ** Claims about the embedding cache *)

Module CacheClaims.

Import Cache.
Local Open Scope string_scope.

(** C4 (as amended).  For an entry stored under the text's key: a get
    whose age [Date.now() - timestamp] is at least the TTL (in
    milliseconds, [ttl * 1000]) returns [null] and deletes the entry; a get
    whose age is strictly below it returns the stored vector and leaves the
    cache unchanged. *)
Theorem getCachedEmbedding_ttl (hash : string -> string) (text : string) (now : Z)
  (cache : EmbeddingCache) (e : CacheEntry) :
  cache !! hashText hash text = Some e ->
  ((ttl e * 1000 <= now - timestamp e)%Z ->
     getCachedEmbedding hash text now cache = (None, delete (hashText hash text) cache)) /\
  ((now - timestamp e < ttl e * 1000)%Z ->
     getCachedEmbedding hash text now cache = (Some (embedding e), cache)).
Proof.
  intros He. unfold getCachedEmbedding. rewrite He. split; intros Hage.
  - destruct (Z.ltb_spec (now - timestamp e) (ttl e * 1000)); [lia|reflexivity].
  - destruct (Z.ltb_spec (now - timestamp e) (ttl e * 1000)); [reflexivity|lia].
Qed.

Lemma getCachedEmbedding_ttl_witness :
  getCachedEmbedding (fun s => s) "t" 5
    (<["t" := mkEntry [1%float] 0 default_ttl]> ∅) =
    (Some [1%float], <["t" := mkEntry [1%float] 0 default_ttl]> ∅) /\
  (((ttl (mkEntry [1%float] 0%Z default_ttl) * 1000 <=
       5 - timestamp (mkEntry [1%float] 0%Z default_ttl))%Z ->
      getCachedEmbedding (fun s => s) "t" 5 (<["t" := mkEntry [1%float] 0 default_ttl]> ∅)
      = (None, delete (hashText (fun s => s) "t")
                  (<["t" := mkEntry [1%float] 0 default_ttl]> ∅))) /\
   ((5 - timestamp (mkEntry [1%float] 0%Z default_ttl) <
       ttl (mkEntry [1%float] 0%Z default_ttl) * 1000)%Z ->
      getCachedEmbedding (fun s => s) "t" 5 (<["t" := mkEntry [1%float] 0 default_ttl]> ∅)
      = (Some (embedding (mkEntry [1%float] 0%Z default_ttl)),
         <["t" := mkEntry [1%float] 0 default_ttl]> ∅))).
Proof.
  split; [vm_compute; reflexivity|].
  apply (getCachedEmbedding_ttl (fun s => s) "t" 5
           (<["t" := mkEntry [1%float] 0 default_ttl]> ∅)).
  vm_compute. reflexivity.
Defined.

(** C4 counterexample.  An entry exactly [ttl] seconds old has not
    exceeded its TTL, yet the get (at [Date.now() = 86400000], entry
    stored at 0) returns [null] and deletes it. *)
Lemma getCachedEmbedding_expires_at_ttl :
  getCachedEmbedding (fun s => s) "t" (default_ttl * 1000)
    (<["t" := mkEntry [1%float] 0 default_ttl]> ∅) = (None, ∅).
Proof. vm_compute. reflexivity. Qed.

(** C6.  Texts equal after normalisation get the same key, so a get of one
    behaves as a get of the other on every cache; in particular after a
    put of one, a get of the other at any clock reading from the put until
    the entry's 24-hour TTL runs out is a hit. *)
Theorem normalized_texts_share_entry (hash : string -> string) (t1 t2 : string)
  (emb : list float) (now now' : Z) (cache : EmbeddingCache) :
  normalizeText t1 = normalizeText t2 ->
  hashText hash t1 = hashText hash t2 /\
  (forall n c, getCachedEmbedding hash t2 n c = getCachedEmbedding hash t1 n c) /\
  ((now <= now' < now + default_ttl * 1000)%Z ->
     fst (getCachedEmbedding hash t2 now' (cacheEmbedding hash t1 emb now cache)) = Some emb).
Proof.
  intros Hn. assert (Hk : hashText hash t1 = hashText hash t2)
    by (unfold hashText; now rewrite Hn).
  split; [exact Hk|]. split.
  - intros n c. unfold getCachedEmbedding. now rewrite Hk.
  - intros Hw. unfold getCachedEmbedding, cacheEmbedding. rewrite <- Hk.
    rewrite lookup_insert_eq. simpl.
    destruct (Z.ltb_spec (now' - now) (default_ttl * 1000)); [reflexivity|lia].
Qed.

Lemma normalized_texts_share_entry_witness :
  normalizeText "  Bake   BREAD " = normalizeText "bake bread" /\
  hashText (fun s => s) "  Bake   BREAD " = hashText (fun s => s) "bake bread" /\
  (forall n c, getCachedEmbedding (fun s => s) "bake bread" n c =
               getCachedEmbedding (fun s => s) "  Bake   BREAD " n c) /\
  ((0 <= 1000 < 0 + default_ttl * 1000)%Z ->
     fst (getCachedEmbedding (fun s => s) "bake bread" 1000
            (cacheEmbedding (fun s => s) "  Bake   BREAD " [1%float] 0 ∅)) = Some [1%float]).
Proof.
  split; [vm_compute; reflexivity|].
  apply (normalized_texts_share_entry (fun s => s) "  Bake   BREAD " "bake bread"
           [1%float] 0 1000 ∅).
  vm_compute. reflexivity.
Defined.

(** C7 (as amended).  The cache has no entry bound and no LRU eviction: a
    put adds one entry when its key is new (none otherwise), leaves every
    other entry as it was and removes none; entries are removed only
    lazily: an entry that a get removes is the one under the get's own
    key, and the get found it expired (its age at least its TTL). *)
Theorem cacheEmbedding_no_eviction (hash : string -> string) (text : string)
  (emb : list float) (now : Z) (cache : EmbeddingCache) :
  size (cacheEmbedding hash text emb now cache) =
    match cache !! hashText hash text with
    | Some _ => size cache
    | None => S (size cache)
    end /\
  (forall k, k <> hashText hash text ->
     cacheEmbedding hash text emb now cache !! k = cache !! k) /\
  (forall k, is_Some (cache !! k) ->
     is_Some (cacheEmbedding hash text emb now cache !! k)) /\
  (forall (text' : string) (now' : Z) k e,
     cache !! k = Some e ->
     snd (getCachedEmbedding hash text' now' cache) !! k = None ->
     k = hashText hash text' /\ (ttl e * 1000 <= now' - timestamp e)%Z).
Proof.
  unfold cacheEmbedding. split; [|split; [|split]].
  - destruct (cache !! hashText hash text) eqn:E.
    + rewrite map_size_insert_Some by eauto. reflexivity.
    + rewrite map_size_insert_None by exact E. reflexivity.
  - intros k Hk. apply lookup_insert_ne. congruence.
  - intros k Hk. destruct (decide (k = hashText hash text)) as [->|Hne].
    + rewrite lookup_insert_eq. eauto.
    + rewrite lookup_insert_ne by congruence. exact Hk.
  - intros text' now' k e Hk Hget. unfold getCachedEmbedding in Hget.
    destruct (decide (k = hashText hash text')) as [->|Hne].
    + rewrite Hk in Hget. split; [reflexivity|].
      destruct (Z.ltb_spec (now' - timestamp e) (ttl e * 1000)); [|lia].
      simpl in Hget. congruence.
    + exfalso. destruct (cache !! hashText hash text') as [e'|];
        [destruct (now' - timestamp e' <? ttl e' * 1000)%Z|]; simpl in Hget;
        rewrite ?lookup_delete_ne in Hget by congruence; congruence.
Qed.

Lemma cacheEmbedding_no_eviction_witness :
  (<["t" := mkEntry [1%float] 0 default_ttl]> (∅ : EmbeddingCache)) !! "t" =
    Some (mkEntry [1%float] 0%Z default_ttl) /\
  snd (getCachedEmbedding (fun s => s) "t" 86400000%Z
         (<["t" := mkEntry [1%float] 0 default_ttl]> ∅)) !! "t" = None /\
  ("t" = hashText (fun s => s) "t" /\
   (ttl (mkEntry [1%float] 0%Z default_ttl) * 1000 <=
      86400000 - timestamp (mkEntry [1%float] 0%Z default_ttl))%Z).
Proof.
  split; [reflexivity|]. split; [vm_compute; reflexivity|].
  apply (proj2 (proj2 (proj2 (cacheEmbedding_no_eviction (fun s => s) "t" [1%float] 0
           (<["t" := mkEntry [1%float] 0 default_ttl]> ∅))))
           "t" 86400000%Z "t" (mkEntry [1%float] 0%Z default_ttl)).
  - reflexivity.
  - vm_compute. reflexivity.
Defined.

Lemma text_a_normal (k : nat) :
  normalizeText (string_of_list_ascii (repeat "a"%char k)) =
  string_of_list_ascii (repeat "a"%char k).
Proof.
  unfold normalizeText. generalize false at 1 as b.
  induction k as [|k IH]; intros b; simpl; [reflexivity|].
  rewrite IH. reflexivity.
Qed.

Lemma text_a_inj (k m : nat) :
  string_of_list_ascii (repeat "a"%char k) = string_of_list_ascii (repeat "a"%char m) ->
  k = m.
Proof.
  intros H. apply (f_equal String.length) in H.
  rewrite <- (repeat_length "a"%char k), <- (repeat_length "a"%char m).
  revert H. generalize (repeat "a"%char k) (repeat "a"%char m).
  induction l as [|x l IH]; intros [|y l'] H; simpl in *; try discriminate; auto.
Qed.

Lemma puts_run (n : nat) :
  size (run_ops (fun s => s)
    (map (fun k => OpPut (string_of_list_ascii (repeat "a"%char k)) [] 0) (seq 0 n)) ∅) = n /\
  (forall m, (n <= m)%nat ->
     run_ops (fun s => s)
       (map (fun k => OpPut (string_of_list_ascii (repeat "a"%char k)) [] 0) (seq 0 n)) ∅
       !! string_of_list_ascii (repeat "a"%char m) = None).
Proof.
  induction n as [|n [IHs IHl]]; [split; [reflexivity | intros; reflexivity]|].
  rewrite seq_S, map_app. unfold run_ops in *. rewrite fold_left_app. simpl.
  unfold cacheEmbedding, hashText. rewrite text_a_normal. split.
  - rewrite map_size_insert_None by (apply IHl; lia). now rewrite IHs.
  - intros m Hm. rewrite lookup_insert_ne; [apply IHl; lia|].
    intros Heq. apply text_a_inj in Heq. lia.
Qed.

(** C7 counterexample.  No bound holds: for every N, N + 1 puts of
    distinct texts leave N + 1 entries (digest taken as the identity). *)
Lemma cache_size_unbounded :
  ~ (exists N : nat, forall ops,
       (size (run_ops (fun s => s) ops ∅) <= N)%nat).
Proof.
  intros [N HN].
  specialize (HN (map (fun k => OpPut (string_of_list_ascii (repeat "a"%char k)) [] 0)
                      (seq 0 (S N)))).
  rewrite (proj1 (puts_run (S N))) in HN. lia.
Qed.

End CacheClaims.

(** ** Claim about the search's effects *)

Module HeapClaims.

Import Similarity SearchHeap.

Lemma deref_cards_mono (h h' : gmap loc obj) (ls : list loc) cs :
  h ⊆ h' -> deref_cards h ls = Some cs -> deref_cards h' ls = Some cs.
Proof.
  intros Hsub. revert cs. induction ls as [|l ls IH]; intros cs H; simpl in *; [exact H|].
  destruct (h !! l) as [[c|]|] eqn:Hl; try discriminate.
  rewrite (lookup_weaken h h' l (OCard c) Hl Hsub).
  destruct (deref_cards h ls) as [cs'|]; [|discriminate].
  rewrite (IH cs' eq_refl). exact H.
Qed.

Lemma read_cards_mono (h h' : gmap loc obj) (r : loc) cs :
  h ⊆ h' -> read_cards h r = Some cs -> read_cards h' r = Some cs.
Proof.
  intros Hsub. unfold read_cards.
  destruct (h !! r) as [[|ls]|] eqn:Hr; try discriminate.
  rewrite (lookup_weaken h h' r (OArray ls) Hr Hsub).
  now apply deref_cards_mono.
Qed.

Lemma alloc_fresh (st : state) :
  state_wf st -> heap st !! next_loc st = None.
Proof.
  intros Hwf. destruct (heap st !! next_loc st) as [o|] eqn:E; [|reflexivity].
  apply Hwf in E. lia.
Qed.

Lemma alloc_wf (o : obj) (st : state) :
  state_wf st -> state_wf (snd (alloc o st)).
Proof.
  intros Hwf l o' Hl. simpl in *.
  destruct (decide (l = next_loc st)) as [->|Hne]; [lia|].
  rewrite lookup_insert_ne in Hl by congruence. apply Hwf in Hl. lia.
Qed.

(** C9.  [semanticSearch] only allocates: on a well-formed heap a
    successful call writes nothing but its fresh result array (the
    candidate array, every card object and every other object keep their
    contents), and a second call with the same arguments on the heap the
    first one left returns an array with the same contents. *)
Theorem semanticSearch_heap_pure (q : list float) (cardsRef : loc) (t : float)
  (st : state) (out : loc) (st' : state) :
  state_wf st ->
  semanticSearch_heap q cardsRef t st = Some (out, st') ->
  heap st !! out = None /\
  (exists o, heap st' = <[out := o]> (heap st)) /\
  (forall l o, heap st !! l = Some o -> heap st' !! l = Some o) /\
  state_wf st' /\
  exists out2 st2,
    semanticSearch_heap q cardsRef t st' = Some (out2, st2) /\
    heap st2 !! out2 = heap st' !! out.
Proof.
  intros Hwf. unfold semanticSearch_heap.
  destruct (read_cards (heap st) cardsRef) as [cards|] eqn:Hread; [|discriminate].
  destruct (rank_all _ q cards t) as [results|] eqn:Hrank; [|discriminate].
  unfold alloc. intros H. injection H as <- <-.
  pose proof (alloc_fresh st Hwf) as Hfresh.
  assert (Hsub : heap st ⊆ <[next_loc st := OArray (map (fun r => fst (fst r)) results)]> (heap st))
    by (now apply insert_subseteq).
  split; [exact Hfresh|]. split; [eexists; reflexivity|].
  split; [intros l o Hl; exact (lookup_weaken _ _ l o Hl Hsub)|].
  split; [exact (alloc_wf (OArray (map (fun r => fst (fst r)) results)) st Hwf)|].
  simpl. rewrite (read_cards_mono _ _ cardsRef cards Hsub Hread), Hrank.
  do 2 eexists. split; [reflexivity|]. simpl.
  now rewrite !lookup_insert_eq.
Qed.

Lemma semanticSearch_heap_pure_witness :
  let st := mkState (<[1%positive := OArray [2%positive]]>
                      (<[2%positive := OCard (mkCard "a"%string (Some [1%float]))]> ∅)) 3%positive in
  state_wf st /\
  semanticSearch_heap [1%float] 1%positive 0%float st =
    Some (3%positive, mkState (<[3%positive := OArray [2%positive]]> (heap st)) 4%positive) /\
  (heap st !! 3%positive = None /\
   (exists o, heap (mkState (<[3%positive := OArray [2%positive]]> (heap st)) 4%positive) =
              <[3%positive := o]> (heap st)) /\
   (forall l o, heap st !! l = Some o ->
      heap (mkState (<[3%positive := OArray [2%positive]]> (heap st)) 4%positive) !! l = Some o) /\
   state_wf (mkState (<[3%positive := OArray [2%positive]]> (heap st)) 4%positive) /\
   exists out2 st2,
     semanticSearch_heap [1%float] 1%positive 0%float
       (mkState (<[3%positive := OArray [2%positive]]> (heap st)) 4%positive) = Some (out2, st2) /\
     heap st2 !! out2 =
       heap (mkState (<[3%positive := OArray [2%positive]]> (heap st)) 4%positive) !! 3%positive).
Proof.
  intros st.
  assert (Hwf : state_wf st).
  { intros l o Hl. unfold st in Hl. simpl in Hl.
    destruct (decide (l = 1%positive)) as [->|H1]; [simpl; lia|].
    rewrite lookup_insert_ne in Hl by congruence.
    destruct (decide (l = 2%positive)) as [->|H2]; [simpl; lia|].
    rewrite lookup_insert_ne in Hl by congruence. discriminate. }
  split; [exact Hwf|]. split; [vm_compute; reflexivity|].
  apply (semanticSearch_heap_pure [1%float] 1%positive 0%float st); [exact Hwf|].
  vm_compute. reflexivity.
Defined.

End HeapClaims.

(** ** Claims about the interchange document and import *)

Module InterchangeClaims.

Import Interchange.
Local Open Scope string_scope.

Lemma traverse_map_with {A B C} (f : A -> option B) (g : C -> A) (h : C -> B) (l : list C) :
  (forall x, f (g x) = Some (h x)) -> traverse f (map g l) = Some (map h l).
Proof.
  intros H. induction l as [|x l IH]; simpl; [reflexivity|].
  now rewrite H, IH.
Qed.

Lemma traverse_map {A B} (f : A -> option B) (g : B -> A) (l : list B) :
  (forall x, f (g x) = Some x) -> traverse f (map g l) = Some l.
Proof.
  intros H. induction l as [|x l IH]; simpl; [reflexivity|].
  now rewrite H, IH.
Qed.

Lemma card_roundtrip (c : CardRecord) : card_of_json (card_to_json c) = Some c.
Proof.
  destruct c as [i ft bc ts fav e]. unfold card_to_json, card_of_json. simpl.
  rewrite (traverse_map json_string JStr ts) by reflexivity.
  destruct e as [v|]; simpl; [|reflexivity].
  rewrite (traverse_map json_number JNum v) by reflexivity. reflexivity.
Qed.

Lemma serialize_roundtrip (d : Deck) (cards : list CardRecord) :
  deserialize (serialize d cards) = Some (d, cards).
Proof.
  destruct d as [n desc]. unfold serialize, deserialize. simpl.
  rewrite (traverse_map card_of_json card_to_json cards) by apply card_roundtrip.
  reflexivity.
Qed.

(** C3.  For every deck and ordered card list whose embeddings satisfy the
    vector invariant, deserializing the serialized document gives back the
    same deck (name, description) and the same cards (content, tags, every
    other field) in the same order, and every embedding is still absent or
    of the model's length. *)
Theorem deserialize_serialize (d : Deck) (cards : list CardRecord) :
  Forall embedding_ok cards ->
  exists cards',
    deserialize (serialize d cards) = Some (d, cards') /\
    map backContent cards' = map backContent cards /\
    map tags cards' = map tags cards /\
    cards' = cards /\
    Forall embedding_ok cards'.
Proof.
  intros Hok. exists cards. rewrite serialize_roundtrip. auto.
Qed.

Lemma deserialize_serialize_witness :
  Forall embedding_ok
    [mkCardRecord "c1" "Bread" "how to bake bread" ["baking"] true
       (Some (repeat 0.5%float 384));
     mkCardRecord "c2" "Tax" "quarterly tax filing" [] false None] /\
  exists cards',
    deserialize (serialize (mkDeck "Kitchen" "recipes")
      [mkCardRecord "c1" "Bread" "how to bake bread" ["baking"] true
         (Some (repeat 0.5%float 384));
       mkCardRecord "c2" "Tax" "quarterly tax filing" [] false None])
      = Some (mkDeck "Kitchen" "recipes", cards') /\
    map backContent cards' = map backContent
      [mkCardRecord "c1" "Bread" "how to bake bread" ["baking"] true
         (Some (repeat 0.5%float 384));
       mkCardRecord "c2" "Tax" "quarterly tax filing" [] false None] /\
    map tags cards' = map tags
      [mkCardRecord "c1" "Bread" "how to bake bread" ["baking"] true
         (Some (repeat 0.5%float 384));
       mkCardRecord "c2" "Tax" "quarterly tax filing" [] false None] /\
    cards' =
      [mkCardRecord "c1" "Bread" "how to bake bread" ["baking"] true
         (Some (repeat 0.5%float 384));
       mkCardRecord "c2" "Tax" "quarterly tax filing" [] false None] /\
    Forall embedding_ok cards'.
Proof.
  assert (Hok : Forall embedding_ok
    [mkCardRecord "c1" "Bread" "how to bake bread" ["baking"] true
       (Some (repeat 0.5%float 384));
     mkCardRecord "c2" "Tax" "quarterly tax filing" [] false None]).
  { repeat constructor. }
  split; [exact Hok|]. apply deserialize_serialize. exact Hok.
Defined.

(** C5.  [serialize] writes every card's embedding as a plain numeric
    array, or [null] when absent; [deserialize] accepts documents whose
    card records have no embedding, as [null] or with the key missing, and
    yields cards that need re-embedding. *)
Theorem serialize_plain_embeddings (d : Deck) (cards : list CardRecord) :
  (exists items,
     lookup_field "cards" (match serialize d cards with JObj fs => fs | _ => [] end)
       = Some (JArr items) /\
     Forall (fun item => exists fs e,
               item = JObj fs /\ lookup_field "embedding" fs = Some e /\
               plain_numeric_or_null e = true) items) /\
  deserialize (serialize d (map clear_embedding cards)) = Some (d, map clear_embedding cards) /\
  deserialize (strip_embeddings (serialize d cards)) = Some (d, map clear_embedding cards) /\
  forallb needsReembedding (map clear_embedding cards) = true.
Proof.
  split; [|split; [|split]].
  - exists (map card_to_json cards). split; [reflexivity|].
    apply List.Forall_forall. intros item Hin. apply in_map_iff in Hin as [c [<- _]].
    do 2 eexists. split; [reflexivity|]. split; [reflexivity|].
    destruct (embedding c) as [v|]; simpl; [|reflexivity].
    induction v; simpl; auto.
  - apply serialize_roundtrip.
  - destruct d as [n desc]. unfold serialize, strip_embeddings, deserialize. simpl.
    rewrite map_map.
    rewrite (traverse_map_with card_of_json (fun c => drop_embedding_key (card_to_json c))
               clear_embedding cards).
    + reflexivity.
    + intros [i ft bc ts fav e]. unfold card_of_json. simpl.
      rewrite (traverse_map json_string JStr ts) by reflexivity. reflexivity.
  - induction cards; simpl; auto.
Qed.

(** C8.  A document that fails schema validation is rejected with
    [MalformedDocument] and the local store is returned unchanged: no deck
    and no card of it is written. *)
Theorem import_malformed_atomic (deckId : string) (doc : json) (store : LocalStore) :
  deserialize doc = None ->
  importDocument deckId doc store = (inl MalformedDocument, store).
Proof. intros H. unfold importDocument. now rewrite H. Qed.

Lemma import_malformed_atomic_witness :
  deserialize
    (JObj [("formatVersion", JNum 1%float); ("name", JStr "Kitchen");
           ("description", JStr "recipes");
           ("cards", JArr [card_to_json (mkCardRecord "c1" "Bread" "bake" [] false None);
                           JObj [("id", JStr "c2"); ("backContent", JStr "x");
                                 ("tags", JStr "not-a-list")]])]) = None /\
  importDocument "deck-1"
    (JObj [("formatVersion", JNum 1%float); ("name", JStr "Kitchen");
           ("description", JStr "recipes");
           ("cards", JArr [card_to_json (mkCardRecord "c1" "Bread" "bake" [] false None);
                           JObj [("id", JStr "c2"); ("backContent", JStr "x");
                                 ("tags", JStr "not-a-list")]])]) ∅
    = (inl MalformedDocument, ∅).
Proof.
  assert (H : deserialize
    (JObj [("formatVersion", JNum 1%float); ("name", JStr "Kitchen");
           ("description", JStr "recipes");
           ("cards", JArr [card_to_json (mkCardRecord "c1" "Bread" "bake" [] false None);
                           JObj [("id", JStr "c2"); ("backContent", JStr "x");
                                 ("tags", JStr "not-a-list")]])]) = None)
    by (vm_compute; reflexivity).
  split; [exact H|]. apply import_malformed_atomic. exact H.
Defined.

End InterchangeClaims.

(* ================================================================== *)
(** * Further properties of the code *)

(** ** Symmetry of the cosine score *)

Module CosineSymmetry.

Import Similarity.
Local Open Scope float_scope.

Lemma SFmul_comm p e x y : SFmul p e x y = SFmul p e y x.
Proof.
  destruct x as [sx|sx| |sx mx ex], y as [sy|sy| |sy my ey]; unfold SFmul;
    rewrite ?(xorb_comm sx sy); try reflexivity.
  rewrite Pos.mul_comm, Z.add_comm. reflexivity.
Qed.

Lemma mul_comm (x y : float) : x * y = y * x.
Proof. apply Prim2SF_inj. rewrite !mul_spec. unfold SF64mul. apply SFmul_comm. Qed.

Lemma index_num_at (p l : list float) (y : float) :
  JsNum.index_num (p ++ y :: l) (length p) = y.
Proof. unfold JsNum.index_num. rewrite nth_error_app2, Nat.sub_diag; reflexivity. Qed.

(** The [reduce] of [dot], from index [length pa], over the remaining
    components [a] and [b] of two vectors [pa ++ a] and [pb ++ b]. *)
Lemma dot_fold_comm (a b pa pb : list float) (acc : float) :
  length pa = length pb -> length a = length b ->
  fold_left (fun s x => (fst s + x * JsNum.index_num (pb ++ b) (snd s), S (snd s)))
    a (acc, length pa)
  = fold_left (fun s x => (fst s + x * JsNum.index_num (pa ++ a) (snd s), S (snd s)))
    b (acc, length pa).
Proof.
  revert b pa pb acc. induction a as [|x a IH]; intros [|y b] pa pb acc Hp Hl;
    simpl in Hl; try discriminate; [reflexivity|].
  simpl. rewrite Hp at 1. rewrite !index_num_at, (mul_comm x y).
  specialize (IH b (pa ++ [x]) (pb ++ [y]) (acc + y * x)).
  rewrite <- !app_assoc in IH. simpl in IH.
  rewrite length_app in IH. simpl in IH. rewrite Nat.add_1_r in IH.
  apply IH; [rewrite !length_app; simpl; lia | lia].
Qed.

Lemma dot_comm (a b : list float) : length a = length b -> dot a b = dot b a.
Proof.
  intros Hl. unfold dot, JsNum.reduce_idx. f_equal.
  exact (dot_fold_comm a b [] [] 0 eq_refl Hl).
Qed.

(** X1: for two vectors of the same length, [cosineSimilarity] gives the
    same score in either argument order, and so does the desktop build's
    [cosineSimilarity(vec1, vec2)]. *)
Theorem cosineSimilarity_symmetric (a b : list float) :
  length a = length b ->
  cosineSimilarity a b = cosineSimilarity b a /\
  DesktopSimilarity.cosineSimilarity a b = DesktopSimilarity.cosineSimilarity b a.
Proof.
  intros Hl.
  assert (H : cosineSimilarity a b = cosineSimilarity b a).
  { unfold cosineSimilarity. rewrite (dot_comm a b Hl), (mul_comm (magnitude a)).
    reflexivity. }
  split; [exact H|].
  change (cosineSimilarity a b = cosineSimilarity b a). exact H.
Qed.

Lemma cosineSimilarity_symmetric_witness :
  length [1; 2] = length [3; 4] /\
  cosineSimilarity [1; 2] [3; 4] = cosineSimilarity [3; 4] [1; 2].
Proof.
  split; [reflexivity|].
  apply (proj1 (cosineSimilarity_symmetric [1; 2] [3; 4] eq_refl)).
Defined.

End CosineSymmetry.

(** ** Failure and edge behaviour of the search *)

Module SearchExtras.

Import Similarity.
Local Open Scope float_scope.

Lemma score_all_none {A} (embedding_of : A -> option (list float)) q (cards : list A) :
  score_all embedding_of q cards = None <-> Exists (fun c => embedding_of c = None) cards.
Proof.
  induction cards as [|c cs IH]; simpl.
  - split; [discriminate | intros H; inversion H].
  - destruct (embedding_of c) as [b|] eqn:Hc.
    + rewrite Exists_cons. destruct (score_all embedding_of q cs) as [rs|].
      * split; [discriminate|]. intros [H|H]; [congruence|].
        apply IH in H. discriminate.
      * split; [intros _; right; now apply IH | reflexivity].
    + split; [intros _; now left | reflexivity].
Qed.

(** X2: the search rejects exactly when the query embedding is rejected
    (the model cannot be loaded) or some card has no stored embedding (a
    [TypeError] on the [null] of [JSON.parse(card.content_embedding)]),
    whatever the other cards and the threshold. *)
Theorem semanticSearch_throws_iff_unembedded
  (getEmbedding : string -> option (list float))
  (query : string) (cards : list Card) (threshold : float) :
  semanticSearch getEmbedding query cards threshold = None <->
  getEmbedding query = None \/ Exists (fun c => content_embedding c = None) cards.
Proof.
  unfold semanticSearch, semanticSearch_vec, rankedResults, rank_all.
  destruct (getEmbedding query) as [q|]; [|split; [now left | reflexivity]].
  rewrite <- (score_all_none content_embedding q cards).
  destruct (score_all content_embedding q cards); split;
    [congruence | intros [H|H]; congruence | intros _; right; reflexivity | reflexivity].
Qed.

Lemma gt_nan_r (s : float) : JsNum.gt s nan = false.
Proof. unfold JsNum.gt. rewrite ltb_spec. reflexivity. Qed.

Lemma gt_infinity_r (s : float) : JsNum.gt s infinity = false.
Proof.
  unfold JsNum.gt. rewrite ltb_spec.
  unfold SFltb, SFcompare. simpl.
  destruct (Prim2SF s) as [[]|[]| |[] ? ?]; reflexivity.
Qed.

(** X3: with a threshold that is NaN or +Infinity no score passes
    [r.similarity > threshold]: every search that returns gives []. *)
Theorem semanticSearch_unreachable_threshold
  (getEmbedding : string -> option (list float))
  (query : string) (cards : list Card) (threshold : float) (res : list Card) :
  threshold = nan \/ threshold = infinity ->
  semanticSearch getEmbedding query cards threshold = Some res -> res = [].
Proof.
  intros Ht. unfold semanticSearch, semanticSearch_vec, rankedResults, rank_all.
  destruct (getEmbedding query) as [q|]; [|discriminate].
  destruct (score_all content_embedding q cards) as [scored|];
    [|discriminate].
  replace (List.filter (fun r => JsNum.gt (snd r) threshold) scored) with (@nil (Card * float)).
  - intros H. injection H as <-. reflexivity.
  - symmetry. induction scored as [|r rs IH]; [reflexivity|]. simpl.
    destruct Ht as [-> | ->]; [rewrite gt_nan_r | rewrite gt_infinity_r]; exact IH.
Qed.

Lemma semanticSearch_unreachable_threshold_witness :
  semanticSearch (fun _ => Some [1]) "query" [mkCard "c" (Some [1])] nan = Some [] /\
  @nil Card = [].
Proof.
  split; [reflexivity|].
  apply (semanticSearch_unreachable_threshold (fun _ => Some [1]) "query"
           [mkCard "c" (Some [1])] nan []).
  - left. reflexivity.
  - reflexivity.
Defined.

End SearchExtras.

(** ** Further properties of the embedding cache *)

Module CacheExtras.

Import Cache.
Local Open Scope string_scope.

(** X4: a get never adds an entry and never touches an entry under another
    key: the cache afterwards is contained in the cache before, and equal
    to it outside the text's key. *)
Theorem getCachedEmbedding_local (hash : string -> string) (text : string) (now : Z)
  (cache : EmbeddingCache) (k : string) :
  k <> hashText hash text ->
  snd (getCachedEmbedding hash text now cache) ⊆ cache /\
  snd (getCachedEmbedding hash text now cache) !! k = cache !! k.
Proof.
  intros Hk. unfold getCachedEmbedding.
  destruct (cache !! hashText hash text) as [e|];
    [destruct (now - timestamp e <? ttl e * 1000)%Z|]; simpl;
    (split; [apply delete_subseteq || reflexivity | apply lookup_delete_ne || reflexivity]);
    congruence.
Qed.

Lemma getCachedEmbedding_local_witness :
  "u" <> hashText (fun s => s) "t" /\
  snd (getCachedEmbedding (fun s => s) "t" 0
         (<["u" := mkEntry [] 0 0]> (<["t" := mkEntry [] 0 0]> ∅)))
    ⊆ <["u" := mkEntry [] 0 0]> (<["t" := mkEntry [] 0 0]> ∅) /\
  snd (getCachedEmbedding (fun s => s) "t" 0
         (<["u" := mkEntry [] 0 0]> (<["t" := mkEntry [] 0 0]> ∅))) !! "u"
    = Some (mkEntry [] 0 0).
Proof.
  assert (Hne : "u" <> hashText (fun s => s) "t") by (vm_compute; discriminate).
  split; [exact Hne|].
  destruct (getCachedEmbedding_local (fun s => s) "t" 0
              (<["u" := mkEntry [] 0 0]> (<["t" := mkEntry [] 0 0]> ∅)) "u" Hne)
    as [Hsub Hu].
  split; [exact Hsub|]. rewrite Hu. vm_compute. reflexivity.
Defined.

(** X5: at a fixed clock reading a get is idempotent: repeating it returns
    the same result and leaves the cache as the first one left it. *)
Theorem getCachedEmbedding_idempotent (hash : string -> string) (text : string)
  (now : Z) (cache : EmbeddingCache) :
  getCachedEmbedding hash text now (snd (getCachedEmbedding hash text now cache)) =
  getCachedEmbedding hash text now cache.
Proof.
  unfold getCachedEmbedding.
  destruct (cache !! hashText hash text) as [e|] eqn:He.
  - destruct (now - timestamp e <? ttl e * 1000)%Z eqn:Ht; simpl.
    + rewrite He, Ht. reflexivity.
    + rewrite lookup_delete_eq, delete_delete_eq. reflexivity.
  - simpl. rewrite lookup_delete_eq, delete_delete_eq. reflexivity.
Qed.

Lemma run_ops_absent (hash : string -> string) (h : string) (ops : list cache_op)
  (cache : EmbeddingCache) :
  cache !! h = None -> Forall (no_put_at hash h) ops ->
  run_ops hash ops cache !! h = None.
Proof.
  revert cache. induction ops as [|op ops IH]; intros cache Hc Hops; [exact Hc|].
  inversion Hops as [|? ? Hop Hrest]; subst.
  change (run_ops hash ops (run_op hash cache op) !! h = None).
  apply IH; [|exact Hrest].
  destruct op as [t n|t emb n]; unfold no_put_at in Hop; unfold run_op.
  - unfold getCachedEmbedding.
    destruct (cache !! hashText hash t) as [e|];
      [destruct (n - timestamp e <? ttl e * 1000)%Z|]; cbn [snd]; [exact Hc| |];
      (destruct (decide (hashText hash t = h)) as [<-|Hne];
        [apply lookup_delete_eq | rewrite lookup_delete_ne by exact Hne; exact Hc]).
  - unfold cacheEmbedding. rewrite lookup_insert_ne by exact Hop. exact Hc.
Qed.

(** X6: a miss is permanent until the text's key is stored again: after a
    get that returns [null], every later get of the text, at any clock
    reading, after any calls none of which puts a text with the same key,
    returns [null] as well. *)
Theorem getCachedEmbedding_miss_persists (hash : string -> string) (text : string)
  (now now' : Z) (cache : EmbeddingCache) (ops : list cache_op) :
  fst (getCachedEmbedding hash text now cache) = None ->
  Forall (no_put_at hash (hashText hash text)) ops ->
  fst (getCachedEmbedding hash text now'
         (run_ops hash ops (snd (getCachedEmbedding hash text now cache)))) = None.
Proof.
  intros Hmiss Hops.
  assert (Habs : snd (getCachedEmbedding hash text now cache) !! hashText hash text = None).
  { revert Hmiss. unfold getCachedEmbedding.
    destruct (cache !! hashText hash text) as [e|];
      [destruct (now - timestamp e <? ttl e * 1000)%Z|]; simpl;
      [discriminate | |]; intros _; apply lookup_delete_eq. }
  unfold getCachedEmbedding at 1.
  rewrite (run_ops_absent hash _ ops _ Habs Hops). reflexivity.
Qed.

Lemma getCachedEmbedding_miss_persists_witness :
  fst (getCachedEmbedding (fun s => s) "t" 0 ∅) = None /\
  Forall (no_put_at (fun s => s) (hashText (fun s => s) "t"))
    [OpPut "u" [] 1; OpGet "u" 2] /\
  fst (getCachedEmbedding (fun s => s) "t" 3
         (run_ops (fun s => s) [OpPut "u" [] 1; OpGet "u" 2]
            (snd (getCachedEmbedding (fun s => s) "t" 0 ∅)))) = None.
Proof.
  assert (Hm : fst (getCachedEmbedding (fun s => s) "t" 0 ∅) = None)
    by (vm_compute; reflexivity).
  assert (Hops : Forall (no_put_at (fun s => s) (hashText (fun s => s) "t"))
                   [OpPut "u" [] 1; OpGet "u" 2]).
  { repeat constructor. vm_compute. discriminate. }
  split; [exact Hm|]. split; [exact Hops|].
  apply (getCachedEmbedding_miss_persists (fun s => s) "t" 0 3 ∅ _ Hm Hops).
Defined.

(** X7: caching a text whose key is already written by an earlier put
    replaces that put entirely: put(t1, e1, n1) then put(t2, e2, n2) with
    the same key leaves the cache the second put alone would leave (the
    timestamp is refreshed, no duplicate entry). *)
Theorem cacheEmbedding_overwrites (hash : string -> string) (t1 t2 : string)
  (e1 e2 : list float) (n1 n2 : Z) (cache : EmbeddingCache) :
  hashText hash t1 = hashText hash t2 ->
  cacheEmbedding hash t2 e2 n2 (cacheEmbedding hash t1 e1 n1 cache) =
  cacheEmbedding hash t2 e2 n2 cache.
Proof.
  intros Hk. unfold cacheEmbedding. rewrite Hk. apply insert_insert_eq.
Qed.

Lemma cacheEmbedding_overwrites_witness :
  hashText (fun s => s) "Tea" = hashText (fun s => s) "tea" /\
  cacheEmbedding (fun s => s) "tea" [2%float] 5
    (cacheEmbedding (fun s => s) "Tea" [1%float] 0 ∅) =
  cacheEmbedding (fun s => s) "tea" [2%float] 5 ∅.
Proof.
  assert (Hk : hashText (fun s => s) "Tea" = hashText (fun s => s) "tea")
    by (vm_compute; reflexivity).
  split; [exact Hk|].
  apply (cacheEmbedding_overwrites (fun s => s) "Tea" "tea" _ _ 0 5 ∅ Hk).
Defined.

End CacheExtras.

(** ** The platform schema *)

Module SchemaExtras.

Import PlatformSchema.
Local Open Scope string_scope.

(** X8: every universal field is in the schema of every platform; the
    value of a field is the selected extension's when the extension has
    that field (the pgvector part only for ["web"], the sqlite-vss part
    only for ["desktop"] with [useVectorSearch] on), and the universal
    part's otherwise; any other platform, and ["desktop"] without vector
    search, gets exactly the universal fields. *)
Theorem getSchema_fields {V : Type} (schema : @Schema V) (useVectorSearch : bool)
  (platform k : string) :
  (is_Some (universal schema !! k) ->
     is_Some (getSchema schema useVectorSearch platform !! k)) /\
  getSchema schema useVectorSearch platform !! k =
    (if String.eqb platform "web" then
       match pgvector schema !! k with
       | Some v => Some v
       | None => universal schema !! k
       end
     else if String.eqb platform "desktop" && useVectorSearch then
       match sqlite_vss schema !! k with
       | Some v => Some v
       | None => universal schema !! k
       end
     else universal schema !! k) /\
  (String.eqb platform "web" = false ->
   (String.eqb platform "desktop" && useVectorSearch) = false ->
   getSchema schema useVectorSearch platform = universal schema).
Proof.
  unfold getSchema, spread. split; [|split].
  - intros Hu. apply lookup_union_is_Some. right.
    apply lookup_union_is_Some. right.
    apply lookup_union_is_Some. left. exact Hu.
  - destruct (String.eqb_spec platform "web") as [->|Hw]; simpl.
    + rewrite !lookup_union, !lookup_empty.
      destruct (pgvector schema !! k), (universal schema !! k); reflexivity.
    + destruct (String.eqb platform "desktop" && useVectorSearch);
        rewrite !lookup_union, !lookup_empty;
        [destruct (sqlite_vss schema !! k)|]; destruct (universal schema !! k);
        reflexivity.
  - intros Hw Hd. rewrite Hw, Hd. apply map_eq. intros i.
    rewrite !lookup_union, !lookup_empty. destruct (universal schema !! i); reflexivity.
Qed.

Lemma getSchema_fields_witness :
  String.eqb "mobile" "web" = false /\
  (String.eqb "mobile" "desktop" && true) = false /\
  getSchema (mkSchema ({["id" := 1%nat]}) ({["vec" := 2%nat]}) ({["vss" := 3%nat]}))
    true "mobile" = {["id" := 1%nat]}.
Proof.
  split; [reflexivity|]. split; [reflexivity|].
  exact (proj2 (proj2 (getSchema_fields
    (mkSchema ({["id" := 1%nat]}) ({["vec" := 2%nat]}) ({["vss" := 3%nat]}))
    true "mobile" "id")) eq_refl eq_refl).
Defined.

End SchemaExtras.

(** ** The keyboard shortcut over the component's lifetime *)

Module ShortcutExtras.

Import Shortcuts.

Lemma deck_id_eqb_true (a b : deck_id) : deck_id_eqb a b = true -> a = b.
Proof.
  destruct a, b; simpl; try discriminate; try reflexivity.
  intros H. apply String.eqb_eq in H. now subst.
Qed.

Lemma hook_step_inv (st : hook_state) (ev : lifecycle) :
  hook_inv st -> hook_inv (hook_step st ev).
Proof.
  destruct st as [ls f m]. unfold hook_inv. simpl. intros ->.
  destruct ev as [d|], m as [h|]; simpl;
    [destruct (deck_id_eqb (captured h) d); simpl| | |];
    rewrite ?Nat.eqb_refl; reflexivity.
Qed.

Lemma run_lifecycle_inv (evs : list lifecycle) (st : hook_state) :
  hook_inv st -> hook_inv (run_lifecycle evs st).
Proof.
  revert st. induction evs as [|ev evs IH]; intros st H; [exact H|].
  apply IH, hook_step_inv, H.
Qed.

Lemma render_mounts (st : hook_state) (d : deck_id) :
  exists h, mounted (hook_step st (Render d)) = Some h /\ captured h = d.
Proof.
  destruct st as [ls f [h|]]; simpl; [|eauto].
  destruct (deck_id_eqb (captured h) d) eqn:E; simpl; [|eauto].
  exists h. split; [reflexivity|]. now apply deck_id_eqb_true.
Qed.

(** X9: whatever re-renders came before, once the component has rendered
    with [currentDeckId = d] a key press runs exactly one [handleKeyDown],
    the one that sees [d] (so Cmd/Ctrl+N opens one dialog, for the current
    deck); after unmount no [keydown] listener of the component is left. *)
Theorem keydown_handled_once (evs : list lifecycle) (d : deck_id) (e : KeyboardEvent) :
  dispatch e (run_lifecycle (evs ++ [Render d]) initial_hook) = handleKeyDown d e /\
  listeners (run_lifecycle (evs ++ [Unmount]) initial_hook) = [].
Proof.
  unfold run_lifecycle. rewrite !fold_left_app. cbn [fold_left].
  assert (Hinv : hook_inv (fold_left hook_step evs initial_hook))
    by (apply run_lifecycle_inv; reflexivity).
  split.
  - pose proof (hook_step_inv _ (Render d) Hinv) as Hi.
    destruct (render_mounts (fold_left hook_step evs initial_hook) d) as (h & Hm & Hc).
    unfold hook_inv in Hi. rewrite Hm in Hi.
    unfold dispatch. rewrite Hi. simpl. rewrite Hc, app_nil_r. reflexivity.
  - pose proof (hook_step_inv _ Unmount Hinv) as Hi. unfold hook_inv in Hi.
    rewrite Hi. destruct (fold_left hook_step evs initial_hook) as [ls f [h|]];
      reflexivity.
Qed.

End ShortcutExtras.

(** ** The API client *)

Module ApiExtras.

Import ApiClient.
Local Open Scope string_scope.

(** X10: [api.get] sends exactly one request, to [API_URL + url] with the
    single header [Authorization: Bearer <token as a string>] (a [null]
    token is sent as ["Bearer null"]), and never reads the status: two
    responses with the same body (a 200 and a 401, say) give the same
    result; there is no 401 handling and no retry. *)
Theorem api_get_ignores_status (API_URL : string)
  (json_parse : string -> option Interchange.json) (token : js_value)
  (fetch1 fetch2 : Request -> option Response) (url : string) :
  option_map body
    (fetch1 (mkRequest (API_URL ++ url) [("Authorization", "Bearer " ++ to_string token)])) =
  option_map body
    (fetch2 (mkRequest (API_URL ++ url) [("Authorization", "Bearer " ++ to_string token)])) ->
  api_get API_URL json_parse token fetch1 url = api_get API_URL json_parse token fetch2 url /\
  fst (api_get API_URL json_parse token fetch1 url) =
    [mkRequest (API_URL ++ url) [("Authorization", "Bearer " ++ to_string token)]].
Proof.
  intros H. unfold api_get. split; [|reflexivity]. f_equal.
  destruct (fetch1 _) as [r1|], (fetch2 _) as [r2|]; simpl in H;
    try discriminate; [|reflexivity].
  injection H as ->. reflexivity.
Qed.

Lemma api_get_ignores_status_witness :
  option_map body ((fun _ => Some (mkResponse 200 "{}")) (mkRequest "https://api/decks"
     [("Authorization", "Bearer null")])) =
  option_map body ((fun _ => Some (mkResponse 401 "{}")) (mkRequest "https://api/decks"
     [("Authorization", "Bearer null")])) /\
  api_get "https://api" (fun _ => Some (Interchange.JObj [])) JSNull
    (fun _ => Some (mkResponse 200 "{}")) "/decks" =
  api_get "https://api" (fun _ => Some (Interchange.JObj [])) JSNull
    (fun _ => Some (mkResponse 401 "{}")) "/decks" /\
  fst (api_get "https://api" (fun _ => Some (Interchange.JObj [])) JSNull
         (fun _ => Some (mkResponse 200 "{}")) "/decks") =
    [mkRequest "https://api/decks" [("Authorization", "Bearer null")]].
Proof.
  split; [reflexivity|].
  apply (api_get_ignores_status "https://api" (fun _ => Some (Interchange.JObj [])) JSNull
           (fun _ => Some (mkResponse 200 "{}")) (fun _ => Some (mkResponse 401 "{}"))
           "/decks").
  reflexivity.
Defined.

End ApiExtras.

(** ** The export endpoint *)

Module ExportExtras.

Import GitHubExport.
Local Open Scope string_scope.

(** X11: a successful export pushes the serialisation of the fetched deck
    and cards to [repo_url], then logs it, and answers with [repo_url];
    nothing is logged without a completed push, and a failure of
    [log_export] after the push answers with an error although the
    repository was already written. *)
Theorem export_to_github_outcomes {DeckRow CardRow Client : Type}
  (get_deck : string -> option DeckRow) (get_cards : string -> option (list CardRow))
  (serialize_deck : DeckRow -> list CardRow -> option Interchange.json)
  (get_github_client : option Client)
  (create_or_update_repo : Client -> string -> Interchange.json -> bool)
  (log_export : string -> string -> bool)
  (deck_id repo_url : string) (trace : list event) (resp : option ExportResponse) :
  export_to_github get_deck get_cards serialize_deck get_github_client
    create_or_update_repo log_export deck_id repo_url = (trace, resp) ->
  (resp = Some (mkExportResponse true repo_url) /\
   exists deck cards j,
     get_deck deck_id = Some deck /\ get_cards deck_id = Some cards /\
     serialize_deck deck cards = Some j /\
     trace = [Pushed repo_url j; Logged deck_id repo_url]) \/
  (resp = None /\
   (trace = [] \/
    exists j, trace = [Pushed repo_url j] /\ log_export deck_id repo_url = false)).
Proof.
  unfold export_to_github.
  destruct (get_deck deck_id) as [deck|] eqn:Hd;
    [|intros H; injection H as <- <-; right; auto].
  destruct (get_cards deck_id) as [cards|] eqn:Hc;
    [|intros H; injection H as <- <-; right; auto].
  destruct (serialize_deck deck cards) as [j|] eqn:Hs;
    [|intros H; injection H as <- <-; right; auto].
  destruct get_github_client as [client|];
    [|intros H; injection H as <- <-; right; auto].
  destruct (create_or_update_repo client repo_url j);
    [|intros H; injection H as <- <-; right; auto].
  destruct (log_export deck_id repo_url) eqn:Hl; intros H; injection H as <- <-.
  - left. split; [reflexivity|]. exists deck, cards, j. auto.
  - right. split; [reflexivity|]. right. exists j. auto.
Qed.

Lemma export_to_github_outcomes_witness :
  export_to_github (fun _ => Some "deck") (fun _ => Some ["card"])
    (fun _ _ => Some (Interchange.JObj [])) (Some tt) (fun _ _ _ => true)
    (fun _ _ => false) "deck-1" "https://github.com/u/d" =
    ([Pushed "https://github.com/u/d" (Interchange.JObj [])], None) /\
  ((@None ExportResponse = Some (mkExportResponse true "https://github.com/u/d") /\
    exists (deck : string) (cards : list string) j,
      Some "deck" = Some deck /\ Some ["card"] = Some cards /\
      Some (Interchange.JObj []) = Some j /\
      [Pushed "https://github.com/u/d" (Interchange.JObj [])] =
        [Pushed "https://github.com/u/d" j; Logged "deck-1" "https://github.com/u/d"]) \/
   (@None ExportResponse = None /\
    ([Pushed "https://github.com/u/d" (Interchange.JObj [])] = [] \/
     exists j, [Pushed "https://github.com/u/d" (Interchange.JObj [])] =
                 [Pushed "https://github.com/u/d" j] /\ false = false))).
Proof.
  split; [reflexivity|].
  apply (export_to_github_outcomes (fun _ => Some "deck") (fun _ => Some ["card"])
           (fun _ _ => Some (Interchange.JObj [])) (Some tt) (fun _ _ _ => true)
           (fun _ _ => false) "deck-1" "https://github.com/u/d").
  reflexivity.
Defined.

End ExportExtras.

(* ------------------------------------------------------------------ *)
(** ** Order of binary64 numbers and the sign of a difference *)

Module FloatOrder.

Import FloatClass.
Local Open Scope Z_scope.

Section Sign.

Variables prec emax : Z.
Hypothesis Hprec : (1 <= prec)%Z.
Hypothesis Hemax : (2 <= emax)%Z.

Lemma digits2_pos_bounds (p : positive) :
  (2 ^ (Zpos (digits2_pos p) - 1) <= Zpos p < 2 ^ Zpos (digits2_pos p))%Z.
Proof.
  induction p as [p IH|p IH|]; simpl digits2_pos.
  - rewrite Pos2Z.inj_succ, (Pos2Z.inj_xI p).
    replace (Z.succ (Zpos (digits2_pos p)) - 1)%Z with (Zpos (digits2_pos p)) by lia.
    rewrite Z.pow_succ_r by lia.
    assert (H1 : (2 ^ Zpos (digits2_pos p) = 2 * 2 ^ (Zpos (digits2_pos p) - 1))%Z).
    { rewrite <- Z.pow_succ_r by lia. f_equal. lia. }
    lia.
  - rewrite Pos2Z.inj_succ, (Pos2Z.inj_xO p).
    replace (Z.succ (Zpos (digits2_pos p)) - 1)%Z with (Zpos (digits2_pos p)) by lia.
    rewrite Z.pow_succ_r by lia.
    assert (H1 : (2 ^ Zpos (digits2_pos p) = 2 * 2 ^ (Zpos (digits2_pos p) - 1))%Z).
    { rewrite <- Z.pow_succ_r by lia. f_equal. lia. }
    lia.
  - simpl. lia.
Qed.

Lemma shr_1_m (r : shr_record) :
  (0 <= shr_m r)%Z -> shr_m (shr_1 r) = (shr_m r / 2)%Z.
Proof.
  destruct r as [m rr s]. simpl. intros Hm.
  destruct m as [|[p|p|]|p]; simpl; try reflexivity; try lia.
  - rewrite (Pos2Z.inj_xI p). rewrite Z.add_comm, Z.mul_comm, Z.div_add by lia. reflexivity.
  - rewrite (Pos2Z.inj_xO p). rewrite Z.mul_comm, Z.div_mul by lia. reflexivity.
Qed.

Lemma iter_shr_1_m (n : positive) (r : shr_record) :
  (0 <= shr_m r)%Z ->
  shr_m (SpecFloat.iter_pos shr_1 n r) = (shr_m r / 2 ^ Zpos n)%Z /\ (0 <= shr_m (SpecFloat.iter_pos shr_1 n r))%Z.
Proof.
  revert r. induction n as [n IH|n IH|]; intros r Hr; simpl SpecFloat.iter_pos.
  - assert (H1 : (0 <= shr_m (shr_1 r))%Z) by (rewrite shr_1_m by lia; apply Z.div_pos; lia).
    destruct (IH _ H1) as [E1 P1]. destruct (IH _ P1) as [E2 P2].
    split; [|exact P2]. rewrite E2, E1, shr_1_m by lia.
    assert (Hp : (0 < 2 ^ Zpos n)%Z) by (apply Z.pow_pos_nonneg; lia).
    rewrite !Z.div_div by nia.
    f_equal. rewrite (Pos2Z.inj_xI n).
    replace (2 * Zpos n + 1)%Z with (Zpos n + Zpos n + 1)%Z by lia.
    rewrite !Z.pow_add_r by lia. ring.
  - destruct (IH _ Hr) as [E1 P1]. destruct (IH _ P1) as [E2 P2].
    split; [|exact P2]. rewrite E2, E1.
    assert (Hp : (0 < 2 ^ Zpos n)%Z) by (apply Z.pow_pos_nonneg; lia).
    rewrite Z.div_div by nia.
    f_equal. rewrite (Pos2Z.inj_xO n).
    replace (2 * Zpos n)%Z with (Zpos n + Zpos n)%Z by lia.
    rewrite !Z.pow_add_r by lia. ring.
  - split; [rewrite shr_1_m by lia; reflexivity|].
    rewrite shr_1_m by lia. apply Z.div_pos; lia.
Qed.


Lemma shr_fexp_ge1 (m e : Z) (l : location) :
  (1 <= m)%Z -> (SpecFloat.emin prec emax <= e)%Z ->
  (1 <= shr_m (fst (shr_fexp prec emax m e l)))%Z /\
  (SpecFloat.emin prec emax <= snd (shr_fexp prec emax m e l))%Z.
Proof.
  intros Hm He. unfold shr_fexp.
  destruct m as [|p|p]; try lia.
  assert (Hr : shr_m (shr_record_of_loc (Zpos p) l) = Zpos p)
    by (destruct l as [|[]]; reflexivity).
  simpl Zdigits2. pose proof (digits2_pos_bounds p) as [Dlo Dhi].
  set (D := Zpos (digits2_pos p)) in *.
  unfold fexp.
  destruct (Z.max (D + e - prec) (SpecFloat.emin prec emax) - e)%Z as [|n|n] eqn:En;
    unfold shr; simpl fst; simpl snd; try (rewrite Hr; lia).
  assert (Hn : Zpos n = (D - prec)%Z) by lia.
  destruct (iter_shr_1_m n (shr_record_of_loc (Zpos p) l)) as [E _]; [rewrite Hr; lia|].
  rewrite E, Hr. split; [|lia].
  assert (H2 : (2 ^ Zpos n <= 2 ^ (D - 1))%Z) by (apply Z.pow_le_mono_r; lia).
  assert (Hp : (0 < 2 ^ Zpos n)%Z) by (apply Z.pow_pos_nonneg; lia).
  apply Z.div_le_lower_bound; lia.
Qed.

Lemma round_nearest_even_ge (m : Z) (l : location) :
  (m <= round_nearest_even m l)%Z.
Proof.
  destruct l as [|[]]; simpl; try lia.
  destruct (Z.even m); lia.
Qed.

Lemma binary_round_aux_pos (s : bool) (m e : Z) (l : location) :
  (1 <= m)%Z -> (SpecFloat.emin prec emax <= e)%Z ->
  exists q e', binary_round_aux prec emax s m e l = S754_finite s q e' \/
               binary_round_aux prec emax s m e l = S754_infinity s.
Proof.
  intros Hm He. unfold binary_round_aux.
  pose proof (shr_fexp_ge1 m e l Hm He) as [H1 H2].
  destruct (shr_fexp prec emax m e l) as [r1 e1]. simpl in H1, H2.
  pose proof (round_nearest_even_ge (shr_m r1) (loc_of_shr_record r1)) as H3.
  pose proof (shr_fexp_ge1 (round_nearest_even (shr_m r1) (loc_of_shr_record r1)) e1 loc_Exact ltac:(lia) H2) as [H4 _].
  destruct (shr_fexp prec emax _ e1 loc_Exact) as [r2 e2]. simpl in H4.
  destruct (shr_m r2) as [|q|q]; try lia.
  exists q, e2. destruct (e2 <=? emax - prec)%Z; auto.
Qed.

Lemma binary_normalize_sign (m e : Z) :
  (SpecFloat.emin prec emax <= e)%Z -> m <> 0%Z ->
  exists q e', binary_normalize prec emax m e false = S754_finite (m <? 0)%Z q e' \/
               binary_normalize prec emax m e false = S754_infinity (m <? 0)%Z.
Proof.
  intros He Hm. destruct m as [|p|p]; [congruence| |]; simpl binary_normalize;
    unfold binary_round;
    destruct (shl_align p e (fexp prec emax (Zpos (digits2_pos p) + e))) as [mz ez] eqn:Es;
    (assert (Hez : (SpecFloat.emin prec emax <= ez)%Z) by
       (unfold shl_align in Es; unfold fexp in Es;
        destruct (Z.max _ _ - e)%Z; injection Es; intros; subst; lia));
    apply binary_round_aux_pos; lia.
Qed.

Lemma shl_align_fst (m : positive) (e ez : Z) :
  (ez <= e)%Z -> Zpos (fst (shl_align m e ez)) = (Zpos m * 2 ^ (e - ez))%Z.
Proof.
  intros H. unfold shl_align.
  destruct (ez - e)%Z as [|d|d] eqn:Ed.
  - replace (e - ez)%Z with 0%Z by lia. simpl. lia.
  - lia.
  - replace (e - ez)%Z with (Zpos d) by lia. simpl fst.
    clear. induction d as [|d IH] using Pos.peano_ind.
    + simpl. lia.
    + rewrite Pos.iter_succ, Pos2Z.inj_succ, Z.pow_succ_r by lia.
      rewrite (Pos2Z.inj_xO (Pos.iter xO m d)), IH. ring.
Qed.

(** What validity says about a finite value. *)
Lemma bounded_facts (m : positive) (e : Z) :
  bounded prec emax m e = true ->
  (SpecFloat.emin prec emax <= e)%Z /\ (Zpos m < 2 ^ prec)%Z /\
  ((SpecFloat.emin prec emax < e)%Z -> (2 ^ (prec - 1) <= Zpos m)%Z).
Proof.
  unfold bounded, canonical_mantissa, fexp. rewrite andb_true_iff, Z.eqb_eq.
  intros [Hc _]. pose proof (digits2_pos_bounds m) as [Dlo Dhi].
  set (D := Zpos (digits2_pos m)) in *.
  split; [lia|]. split.
  - apply (Z.lt_le_trans _ _ _ Dhi). apply Z.pow_le_mono_r; lia.
  - intros Hlt. refine (Z.le_trans _ _ _ _ Dlo). apply Z.pow_le_mono_r; lia.
Qed.

Lemma scaled_lt (m1 m2 : positive) (e1 e2 ez : Z) :
  bounded prec emax m1 e1 = true -> bounded prec emax m2 e2 = true ->
  (ez <= e1)%Z -> (e1 < e2)%Z ->
  (Zpos m1 * 2 ^ (e1 - ez) < Zpos m2 * 2 ^ (e2 - ez))%Z.
Proof.
  intros B1 B2 H1 H12.
  destruct (bounded_facts m1 e1 B1) as [_ [U1 _]].
  destruct (bounded_facts m2 e2 B2) as [L2 [_ N2]].
  specialize (N2 ltac:(destruct (bounded_facts m1 e1 B1); lia)).
  assert (Ha : (0 < 2 ^ (e1 - ez))%Z) by (apply Z.pow_pos_nonneg; lia).
  apply (Z.lt_le_trans _ (2 ^ prec * 2 ^ (e1 - ez))); [nia|].
  replace (e2 - ez)%Z with ((e1 - ez) + 1 + (e2 - e1 - 1))%Z by lia.
  replace prec with ((prec - 1) + 1)%Z at 1 by lia.
  rewrite !Z.pow_add_r by lia.
  assert (Hb : (0 < 2 ^ (e2 - e1 - 1))%Z) by (apply Z.pow_pos_nonneg; lia).
  assert (Hc : (0 < 2 ^ (prec - 1))%Z) by (apply Z.pow_pos_nonneg; lia).
  change (2 ^ 1)%Z with 2%Z.
  set (X := (2 ^ (e1 - ez))%Z) in *. set (Y := (2 ^ (e2 - e1 - 1))%Z) in *.
  set (P := (2 ^ (prec - 1))%Z) in *.
  assert (E1 : (P * X <= Zpos m2 * X)%Z) by (apply Z.mul_le_mono_nonneg_r; lia).
  assert (E2 : (Zpos m2 * X * 1 <= Zpos m2 * X * Y)%Z)
    by (apply Z.mul_le_mono_nonneg_l; lia).
  replace (P * 2 * X)%Z with (2 * (P * X))%Z by ring.
  replace (Zpos m2 * (X * 2 * Y))%Z with (2 * (Zpos m2 * X * Y))%Z by ring.
  lia.
Qed.

Lemma scaled_compare (m1 m2 : positive) (e1 e2 ez : Z) :
  bounded prec emax m1 e1 = true -> bounded prec emax m2 e2 = true ->
  (ez <= e1)%Z -> (ez <= e2)%Z ->
  Z.compare (Zpos m1 * 2 ^ (e1 - ez)) (Zpos m2 * 2 ^ (e2 - ez)) =
  match Z.compare e1 e2 with
  | Lt => Lt | Gt => Gt | Eq => Pos.compare_cont Eq m1 m2
  end.
Proof.
  intros B1 B2 H1 H2.
  destruct (Z.compare_spec e1 e2) as [E|L|G].
  - subst e2.
    change (Pos.compare_cont Eq m1 m2) with (Z.compare (Zpos m1) (Zpos m2)).
    assert (Hx : (0 < 2 ^ (e1 - ez))%Z) by (apply Z.pow_pos_nonneg; lia).
    destruct (Z.compare_spec (Zpos m1) (Zpos m2)) as [Q|Q|Q].
    + apply Z.compare_eq_iff. congruence.
    + apply Z.compare_lt_iff. nia.
    + apply Z.compare_gt_iff. nia.
  - apply Z.compare_lt_iff. now apply scaled_lt.
  - apply Z.compare_gt_iff. now apply scaled_lt.
Qed.

Lemma finite_compare (su sv : bool) (mu mv : positive) (eu ev ez : Z) :
  bounded prec emax mu eu = true -> bounded prec emax mv ev = true ->
  (ez <= eu)%Z -> (ez <= ev)%Z ->
  SFcompare (S754_finite su mu eu) (S754_finite sv mv ev) =
  Some (Z.compare (cond_Zopp su (Zpos mu * 2 ^ (eu - ez)))
                  (cond_Zopp sv (Zpos mv * 2 ^ (ev - ez)))).
Proof.
  intros Bu Bv Hu Hv.
  pose proof (scaled_compare mu mv eu ev ez Bu Bv Hu Hv) as C.
  assert (Pu : (0 < Zpos mu * 2 ^ (eu - ez))%Z)
    by (pose proof (Z.pow_pos_nonneg 2 (eu - ez)); nia).
  assert (Pv : (0 < Zpos mv * 2 ^ (ev - ez))%Z)
    by (pose proof (Z.pow_pos_nonneg 2 (ev - ez)); nia).
  destruct su, sv; unfold cond_Zopp; cbn [SFcompare]; f_equal.
  - rewrite Z.compare_opp, (Z.compare_antisym (Zpos mu * _)), C.
    destruct (eu ?= ev)%Z; reflexivity.
  - symmetry. apply Z.compare_lt_iff. lia.
  - symmetry. apply Z.compare_gt_iff. lia.
  - symmetry. exact C.
Qed.

Lemma SFsub_pos (u v : spec_float) :
  SpecFloat.valid_binary prec emax u = true -> SpecFloat.valid_binary prec emax v = true ->
  SFpos (SFsub prec emax u v) = SFltb v u.
Proof.
  intros Vu Vv.
  destruct u as [su|su| |su mu eu], v as [sv|sv| |sv mv ev];
    try (destruct su); try (destruct sv); try reflexivity;
    simpl in Vu, Vv; unfold SFsub;
    set (ez := Z.min eu ev);
    (assert (Hu : (ez <= eu)%Z) by (unfold ez; lia));
    (assert (Hv : (ez <= ev)%Z) by (unfold ez; lia));
    (assert (Hez : (SpecFloat.emin prec emax <= ez)%Z) by
       (destruct (bounded_facts _ _ Vu); destruct (bounded_facts _ _ Vv); unfold ez; lia));
    rewrite (shl_align_fst mu eu ez Hu), (shl_align_fst mv ev ez Hv);
    unfold SFltb; rewrite (finite_compare _ _ mv mu ev eu ez Vv Vu Hv Hu);
    set (A := cond_Zopp _ (Zpos mu * _)); set (B := cond_Zopp _ (Zpos mv * _));
    (destruct (Z.eq_dec (A - B) 0) as [E|E];
     [ rewrite E; replace (B ?= A)%Z with Eq; [reflexivity|];
       symmetry; apply Z.compare_eq_iff; lia
     | destruct (binary_normalize_sign (A - B) ez Hez E) as [q [e' [R|R]]];
       rewrite R; unfold SFpos, SFltb; cbn [SFcompare];
       destruct (Z.compare_spec B A), (Z.ltb_spec (A - B) 0); try reflexivity; lia ]).
Qed.

Lemma finite_val_bounds (m : positive) (e : Z) :
  bounded prec emax m e = true ->
  (0 < Zpos m * 2 ^ (e - SpecFloat.emin prec emax) < 2 ^ (emax - SpecFloat.emin prec emax))%Z.
Proof.
  intros B. destruct (bounded_facts m e B) as [L [U _]].
  assert (He : (e <= emax - prec)%Z)
    by (unfold bounded in B; apply andb_true_iff in B as [_ B]; lia).
  assert (Hx : (0 < 2 ^ (e - SpecFloat.emin prec emax))%Z) by (apply Z.pow_pos_nonneg; lia).
  split; [nia|].
  apply (Z.lt_le_trans _ (2 ^ prec * 2 ^ (e - SpecFloat.emin prec emax))); [nia|].
  rewrite <- Z.pow_add_r by lia. apply Z.pow_le_mono_r; lia.
Qed.

Lemma SFcompare_val (u v : spec_float) :
  SpecFloat.valid_binary prec emax u = true -> SpecFloat.valid_binary prec emax v = true ->
  u <> S754_nan -> v <> S754_nan ->
  SFcompare u v = Some (Z.compare (sf_val prec emax u) (sf_val prec emax v)).
Proof.
  intros Vu Vv Nu Nv.
  assert (Hb : (0 < 2 ^ (emax - SpecFloat.emin prec emax))%Z).
  { apply Z.pow_pos_nonneg; unfold SpecFloat.emin; lia. }
  destruct u as [su|su| |su mu eu]; [| |congruence|];
  destruct v as [sv|sv| |sv mv ev]; try congruence;
  simpl in Vu, Vv;
  try (pose proof (finite_val_bounds _ _ Vu));
  try (pose proof (finite_val_bounds _ _ Vv));
  try (destruct (bounded_facts _ _ Vu));
  try (destruct (bounded_facts _ _ Vv)).
  all: try (rewrite (finite_compare su sv mu mv eu ev (SpecFloat.emin prec emax) Vu Vv) by lia; reflexivity).
  all: destruct su; try destruct sv; cbn [SFcompare sf_val cond_Zopp]; f_equal; symmetry;
       first [apply Z.compare_eq_iff | apply Z.compare_lt_iff | apply Z.compare_gt_iff]; lia.
Qed.

End Sign.

Lemma gt_sub_zero (x y : float) : PrimFloat.ltb 0 (x - y) = PrimFloat.ltb y x.
Proof.
  rewrite !ltb_spec, sub_spec. unfold SF64sub.
  apply (SFsub_pos FloatOps.prec FloatOps.emax); try discriminate; apply Prim2SF_valid.
Qed.

Lemma ltb_not_nan (x y : float) :
  PrimFloat.ltb x y = true -> Prim2SF x <> S754_nan /\ Prim2SF y <> S754_nan.
Proof.
  rewrite ltb_spec. unfold SFltb. intros H.
  split; intros E; rewrite E in H; [|destruct (Prim2SF x)]; discriminate.
Qed.

Lemma leb_not_nan (x y : float) :
  PrimFloat.leb x y = true -> Prim2SF x <> S754_nan /\ Prim2SF y <> S754_nan.
Proof.
  rewrite leb_spec. unfold SFleb. intros H.
  split; intros E; rewrite E in H; [|destruct (Prim2SF x)]; discriminate.
Qed.

Lemma eqb_not_nan (x y : float) :
  PrimFloat.eqb x y = true -> Prim2SF x <> S754_nan /\ Prim2SF y <> S754_nan.
Proof.
  rewrite FloatAxioms.eqb_spec. unfold SFeqb. intros H.
  split; intros E; rewrite E in H; [|destruct (Prim2SF x)]; discriminate.
Qed.

Lemma compare_fval (x y : float) :
  Prim2SF x <> S754_nan -> Prim2SF y <> S754_nan ->
  SFcompare (Prim2SF x) (Prim2SF y) = Some (Z.compare (fval x) (fval y)).
Proof.
  intros Hx Hy. unfold fval.
  apply SFcompare_val; try discriminate; try apply Prim2SF_valid; assumption.
Qed.

Lemma ltb_fval (x y : float) :
  Prim2SF x <> S754_nan -> Prim2SF y <> S754_nan ->
  PrimFloat.ltb x y = Z.ltb (fval x) (fval y).
Proof.
  intros Hx Hy. rewrite ltb_spec. unfold SFltb. rewrite compare_fval by assumption.
  reflexivity.
Qed.

Lemma leb_fval (x y : float) :
  Prim2SF x <> S754_nan -> Prim2SF y <> S754_nan ->
  PrimFloat.leb x y = Z.leb (fval x) (fval y).
Proof.
  intros Hx Hy. rewrite leb_spec. unfold SFleb, Z.leb. rewrite compare_fval by assumption.
  destruct (fval x ?= fval y); reflexivity.
Qed.

Lemma eqb_fval (x y : float) :
  PrimFloat.eqb x y = true -> fval x = fval y.
Proof.
  intros H. destruct (eqb_not_nan x y H) as [Hx Hy].
  rewrite FloatAxioms.eqb_spec in H. unfold SFeqb in H. rewrite compare_fval in H by assumption.
  apply Z.compare_eq_iff. destruct (fval x ?= fval y); congruence.
Qed.

End FloatOrder.

(* ------------------------------------------------------------------ *)
(** ** The ranking, in terms of the numeric order of the scores *)

Module RankingOrder.

Import FloatClass FloatOrder Similarity SimilarityProofs.

Section Generic.

Context {A : Type}.

Lemma sorts_after_key (a b : A * float) :
  score_not_nan a -> score_not_nan b -> sorts_after a b = Z.ltb (score_key a) (score_key b).
Proof.
  intros Ha Hb. unfold sorts_after, compare_results, JsNum.gt, score_key.
  rewrite gt_sub_zero. apply ltb_fval; assumption.
Qed.

Lemma insert_result_perm' (x : A * float) (l : list (A * float)) :
  Forall score_not_nan (x :: l) -> Forall score_not_nan (insert_result x l).
Proof.
  rewrite !List.Forall_forall. intros H z Hz.
  apply H, (Permutation_in z (insert_result_perm x l)), Hz.
Qed.

Lemma insert_result_key_sorted (x : A * float) (l : list (A * float)) :
  Forall score_not_nan (x :: l) -> Sorted score_ge l -> Sorted score_ge (insert_result x l).
Proof.
  induction l as [|y l IH]; intros Hn Hs; simpl.
  - repeat constructor.
  - inversion Hn as [|? ? Hx Hyl]; subst. inversion Hyl as [|? ? Hy Hl]; subst.
    rewrite sorts_after_key by assumption.
    destruct (Z.ltb_spec (score_key y) (score_key x)) as [Hlt|Hge].
    + constructor; [exact Hs|]. constructor. unfold score_ge. lia.
    + inversion Hs as [|? ? Hs' Hhd]; subst. constructor.
      * apply IH; [constructor; assumption | exact Hs'].
      * destruct l as [|z l']; simpl.
        -- constructor. unfold score_ge. lia.
        -- inversion Hl as [|? ? Hz _]; subst.
           rewrite sorts_after_key by assumption.
           inversion Hhd; subst.
           destruct (score_key z <? score_key x)%Z; constructor; unfold score_ge in *; lia.
Qed.

Lemma sort_results_key_sorted (l : list (A * float)) :
  Forall score_not_nan l -> Sorted score_ge (sort_results l).
Proof.
  unfold sort_results.
  assert (Hgen : forall acc, Forall score_not_nan acc -> Sorted score_ge acc ->
    Forall score_not_nan l -> Sorted score_ge (fold_left (fun acc x => insert_result x acc) l acc)).
  { induction l as [|x l IH]; intros acc Ha Hs Hl; simpl; [exact Hs|].
    inversion Hl; subst.
    apply IH; [apply insert_result_perm'; constructor; assumption
              | apply insert_result_key_sorted; [constructor|]; assumption
              | assumption]. }
  intros Hl. apply Hgen; auto.
Qed.

Lemma insert_result_front (x : A * float) (l : list (A * float)) :
  Forall score_not_nan (x :: l) -> Forall (fun z => (score_key z < score_key x)%Z) l ->
  insert_result x l = x :: l.
Proof.
  destruct l as [|y l]; intros Hn Hk; [reflexivity|]. simpl.
  inversion Hn as [|? ? Hx Hyl]; subst. inversion Hyl; subst. inversion Hk; subst.
  rewrite sorts_after_key by assumption.
  destruct (Z.ltb_spec (score_key y) (score_key x)); [reflexivity | lia].
Qed.

Lemma filter_insert_result (p : A * float -> bool) (x : A * float) (l : list (A * float)) :
  Forall score_not_nan (x :: l) -> StronglySorted score_ge l ->
  List.filter p (insert_result x l) =
  if p x then insert_result x (List.filter p l) else List.filter p l.
Proof.
  induction l as [|y l IH]; intros Hn Hs; simpl; [destruct (p x); reflexivity|].
  inversion Hn as [|? ? Hx Hyl]; subst. inversion Hyl as [|? ? Hy Hl]; subst.
  inversion Hs as [|? ? Hs' Hall]; subst.
  rewrite sorts_after_key by assumption.
  destruct (Z.ltb_spec (score_key y) (score_key x)) as [Hlt|Hge].
  - simpl. destruct (p x) eqn:Px, (p y) eqn:Py; simpl; rewrite ?Px, ?Py.
    + rewrite sorts_after_key by assumption.
      destruct (Z.ltb_spec (score_key y) (score_key x)); [reflexivity | lia].
    + symmetry. apply insert_result_front.
      * constructor; [exact Hx|]. apply List.Forall_forall. intros z Hz.
        apply filter_In in Hz as [Hz _]. rewrite List.Forall_forall in Hl. auto.
      * apply List.Forall_forall. intros z Hz. apply filter_In in Hz as [Hz _].
        rewrite List.Forall_forall in Hall. specialize (Hall z Hz). unfold score_ge in Hall. lia.
    + reflexivity.
    + reflexivity.
  - simpl. destruct (p y) eqn:Py.
    + rewrite IH by (try constructor; assumption).
      destruct (p x); simpl; [|reflexivity].
      rewrite sorts_after_key by assumption.
      destruct (Z.ltb_spec (score_key y) (score_key x)); [lia | reflexivity].
    + apply IH; [constructor|]; assumption.
Qed.

Lemma sort_results_filter (p : A * float -> bool) (l : list (A * float)) :
  Forall score_not_nan l ->
  List.filter p (sort_results l) = sort_results (List.filter p l).
Proof.
  unfold sort_results.
  assert (Hgen : forall acc, Forall score_not_nan acc -> Sorted score_ge acc -> Forall score_not_nan l ->
    List.filter p (fold_left (fun acc x => insert_result x acc) l acc) =
    fold_left (fun acc x => insert_result x acc) (List.filter p l) (List.filter p acc)).
  { induction l as [|x l IH]; intros acc Ha Hs Hl; simpl; [reflexivity|].
    inversion Hl; subst.
    rewrite IH; [|apply insert_result_perm'; constructor; assumption
                 | apply insert_result_key_sorted; [constructor|]; assumption
                 | assumption].
    rewrite filter_insert_result; [| constructor; assumption |].
    - destruct (p x); reflexivity.
    - apply Sorted_StronglySorted; [|exact Hs].
      intros a b c; unfold score_ge; lia. }
  intros Hl. apply Hgen; auto.
Qed.

Lemma sort_results_const (k : Z) (l : list (A * float)) :
  Forall score_not_nan l -> Forall (fun r => score_key r = k) l -> sort_results l = l.
Proof.
  unfold sort_results.
  assert (Hins : forall (x : A * float) acc, Forall score_not_nan (x :: acc) ->
            Forall (fun r => score_key r = k) (x :: acc) ->
            insert_result x acc = (acc ++ [x])%list).
  { intros x acc. induction acc as [|y acc IH]; intros Hn Hk; [reflexivity|].
    inversion Hn as [|? ? Hx Hyl]; subst. inversion Hyl; subst.
    pose proof (Forall_inv Hk) as Kx. pose proof (Forall_inv (Forall_inv_tail Hk)) as Ky.
    simpl in Kx, Ky. simpl. rewrite sorts_after_key by assumption.
    rewrite Ky, Kx, Z.ltb_irrefl. f_equal. apply IH; [constructor; assumption|].
    constructor; [exact Kx | exact (Forall_inv_tail (Forall_inv_tail Hk))]. }
  assert (Hgen : forall acc, Forall score_not_nan (acc ++ l) -> Forall (fun r => score_key r = k) (acc ++ l) ->
            fold_left (fun acc x => insert_result x acc) l acc = (acc ++ l)%list).
  { induction l as [|x l IH]; intros acc Hn Hk; simpl; [now rewrite app_nil_r|].
    assert (Hn' := Hn). assert (Hk' := Hk).
    apply Forall_app in Hn' as [Hna Hnl]. apply Forall_app in Hk' as [Hka Hkl].
    rewrite Hins; [| constructor; [exact (Forall_inv Hnl) | exact Hna]
                   | constructor; [exact (Forall_inv Hkl) | exact Hka]].
    rewrite IH; rewrite <- app_assoc; [reflexivity | exact Hn | exact Hk]. }
  intros Hn Hk. apply (Hgen []); assumption.
Qed.

Lemma filter_filter_impl (p1 p2 : A * float -> bool) (l : list (A * float)) :
  (forall r, p2 r = true -> p1 r = true) ->
  List.filter p2 (List.filter p1 l) = List.filter p2 l.
Proof.
  intros H. induction l as [|x l IH]; simpl; [reflexivity|].
  destruct (p1 x) eqn:P1; simpl; rewrite IH; [reflexivity|].
  destruct (p2 x) eqn:P2; [|reflexivity]. apply H in P2. congruence.
Qed.

Lemma filter_filter_andb (p1 p2 : A * float -> bool) (l : list (A * float)) :
  List.filter p2 (List.filter p1 l) = List.filter (fun r => p2 r && p1 r) l.
Proof.
  induction l as [|x l IH]; simpl; [reflexivity|].
  destruct (p1 x) eqn:E1, (p2 x) eqn:E2; simpl; rewrite ?E1, ?E2, ?IH; reflexivity.
Qed.

Lemma filter_gt_nonnan (t : float) (l : list (A * float)) :
  Forall score_not_nan (List.filter (fun r => JsNum.gt (snd r) t) l).
Proof.
  apply List.Forall_forall. intros r Hr. apply filter_In in Hr as [_ Hr].
  exact (proj2 (ltb_not_nan _ _ Hr)).
Qed.

Lemma rank_all_ordered (embedding_of : A -> option (list float)) q (cards : list A) t rs :
  rank_all embedding_of q cards t = Some rs ->
  Forall score_not_nan rs /\ StronglySorted score_ge rs.
Proof.
  unfold rank_all. destruct (score_all embedding_of q cards) as [scored|]; [|discriminate].
  intros H. injection H as <-. pose proof (filter_gt_nonnan t scored) as Hn.
  split.
  - rewrite List.Forall_forall in *. intros z Hz.
    apply Hn, (Permutation_in z (sort_results_perm _)), Hz.
  - apply Sorted_StronglySorted; [intros a b c; unfold score_ge; lia|].
    apply sort_results_key_sorted, Hn.
Qed.

End Generic.

End RankingOrder.

(** ** The numeric order of the ranked results *)

Module RankingExtras.

Import FloatClass FloatOrder Similarity SimilarityProofs RankingOrder.
Local Open Scope float_scope.
Local Open Scope string_scope.

(** X12: the [results] array is in non-increasing numeric order of score:
    every entry's score is [<=] the score of every entry before it, not
    only of its neighbour.  The comparator [b.similarity - a.similarity]
    is positive exactly when [b.similarity > a.similarity], since no
    score that passed [> threshold] is NaN. *)
Theorem rankedResults_nonincreasing (q : list float) (cards : list Card) (t : float)
  (rs : list (Card * float)) :
  rankedResults q cards t = Some rs ->
  StronglySorted (fun a b => PrimFloat.leb (snd b) (snd a) = true) rs.
Proof.
  intros H. destruct (rank_all_ordered content_embedding q cards t rs H) as [Hn Hs].
  clear H. revert Hn. induction Hs as [|a l Hl IH Hall]; intros Hn; constructor;
    inversion Hn as [|? ? Ha Hln]; subst.
  - exact (IH Hln).
  -
    rewrite List.Forall_forall in *. intros b Hb.
    rewrite leb_fval by first [exact Ha | exact (Hln b Hb)].
    apply Z.leb_le. exact (Hall b Hb).
Qed.

Lemma rankedResults_nonincreasing_witness :
  let cards := [mkCard "x" (Some [1; 0]); mkCard "y" (Some [0; 1]);
                mkCard "z" (Some [1; 1])] in
  let rs := match rankedResults [1; 0] cards default_threshold with
            | Some rs => rs | None => [] end in
  rankedResults [1; 0] cards default_threshold = Some rs /\
  StronglySorted (fun a b => PrimFloat.leb (snd b) (snd a) = true) rs.
Proof.
  intros cards rs. split; [vm_compute; reflexivity|].
  apply (rankedResults_nonincreasing [1; 0] cards default_threshold rs).
  vm_compute. reflexivity.
Defined.

(** X13: the sort is stable with respect to numeric equality: the
    results whose score [===] a given number [s] appear in the same
    relative order as the corresponding cards in the input. *)
Theorem rankedResults_stable (q : list float) (cards : list Card) (t s : float)
  (scored rs : list (Card * float)) :
  score_cards q cards = Some scored ->
  rankedResults q cards t = Some rs ->
  List.filter (fun r => PrimFloat.eqb (snd r) s) rs =
  List.filter (fun r => PrimFloat.eqb (snd r) s && JsNum.gt (snd r) t) scored.
Proof.
  unfold score_cards, rankedResults, rank_all. intros Hs. rewrite Hs.
  intros H. injection H as <-.
  pose proof (filter_gt_nonnan t scored) as Hn.
  rewrite sort_results_filter by exact Hn.
  rewrite (sort_results_const (fval s)).
  - apply filter_filter_andb.
  - rewrite List.Forall_forall in *. intros z Hz.
    apply filter_In in Hz as [Hz _]. auto.
  - apply List.Forall_forall. intros z Hz.
    apply filter_In in Hz as [_ Hz]. exact (eqb_fval _ _ Hz).
Qed.

Lemma rankedResults_stable_witness :
  let cards := [mkCard "b" (Some [1]); mkCard "c" (Some [-1]); mkCard "a" (Some [2])] in
  score_cards [1] cards = Some [(mkCard "b" (Some [1]), 1); (mkCard "c" (Some [-1]), -1);
                                (mkCard "a" (Some [2]), 1)] /\
  rankedResults [1] cards default_threshold =
    Some [(mkCard "b" (Some [1]), 1); (mkCard "a" (Some [2]), 1)] /\
  List.filter (fun r => PrimFloat.eqb (snd r) 1)
    [(mkCard "b" (Some [1]), 1); (mkCard "a" (Some [2]), 1)] =
  List.filter (fun r => PrimFloat.eqb (snd r) 1 && JsNum.gt (snd r) default_threshold)
    [(mkCard "b" (Some [1]), 1); (mkCard "c" (Some [-1]), -1); (mkCard "a" (Some [2]), 1)].
Proof.
  intros cards. split; [vm_compute; reflexivity|]. split; [vm_compute; reflexivity|].
  apply (rankedResults_stable [1] cards default_threshold 1);
    vm_compute; reflexivity.
Defined.

(** X14: for numeric thresholds [t1 <= t2] (the comparison is false when
    either is NaN), raising the threshold from [t1] to [t2] only removes
    results: the results for [t2] are those for [t1] whose score exceeds
    [t2], in the same order.  A NaN [t1] is excluded: no score exceeds
    it, so it gives no results while [t2] may give some. *)
Theorem rankedResults_threshold_mono (q : list float) (cards : list Card) (t1 t2 : float) :
  PrimFloat.leb t1 t2 = true ->
  rankedResults q cards t2 =
  option_map (List.filter (fun r => JsNum.gt (snd r) t2)) (rankedResults q cards t1).
Proof.
  intros Ht. unfold rankedResults, rank_all.
  destruct (score_all content_embedding q cards) as [scored|]; [|reflexivity].
  simpl. f_equal. rewrite sort_results_filter by apply filter_gt_nonnan.
  f_equal. symmetry. apply filter_filter_impl.
  intros r Hr. unfold JsNum.gt in *.
  destruct (ltb_not_nan _ _ Hr) as [H2 Hx]. destruct (leb_not_nan _ _ Ht) as [H1 _].
  rewrite ltb_fval in * by assumption. rewrite leb_fval in Ht by assumption.
  apply Z.ltb_lt in Hr. apply Z.leb_le in Ht. apply Z.ltb_lt. lia.
Qed.

Lemma rankedResults_threshold_mono_witness :
  let cards := [mkCard "x" (Some [1; 0]); mkCard "y" (Some [0; 1]);
                mkCard "z" (Some [1; 1])] in
  PrimFloat.leb 0.5 0.75 = true /\
  rankedResults [1; 0] cards 0.75 =
  option_map (List.filter (fun r => JsNum.gt (snd r) 0.75)) (rankedResults [1; 0] cards 0.5).
Proof.
  intros cards. split; [reflexivity|].
  apply (rankedResults_threshold_mono [1; 0] cards 0.5 0.75). reflexivity.
Defined.

End RankingExtras.
